(** * Honorably: a shallow embedding of the chat backend

    JavaScript strings are modelled as lists of UTF-16 code units ([list Z]);
    JSON request and response bodies by a small [json] type; the OpenAI client
    passed to the handlers ([{ openai, systemInstructions }]) as a record of its
    two endpoints, each returning either a result or a thrown error.  Each
    handler returns the response it sends together with the list of provider
    calls it made, in order.  The conversation store is a state and error
    monad over two tables; the rate limiters are their option records over
    express-rate-limit's memory store; the client-side encryption module is
    written over the browser's text codecs, base64 and an abstract
    [crypto.subtle]. *)

From Stdlib Require Import ZArith QArith List String Ascii Bool Lia.
Import ListNotations.
Open Scope string_scope.
Open Scope list_scope.
Open Scope Z_scope.
Set Warnings "-register-all".

(** ** JavaScript values *)

Definition jsstring := list Z.

(** A string literal of the source as UTF-16 code units (the literals used
    here are ASCII). *)
Definition js (s : string) : jsstring :=
  map (fun a => Z.of_nat (nat_of_ascii a)) (list_ascii_of_string s).

Inductive json : Type :=
| JNull
| JBool (b : bool)
| JNum (q : Q)
| JStr (s : string)
| JArr (l : list json)
| JObj (l : list (string * json)).

(** A thrown JavaScript error: its [code] property (set by the OpenAI client
    on API errors, absent on a [TypeError]) and its [message]. *)
Record js_error : Type := mk_error { code : option string; err_message : string }.

Definition type_error (prop : string) : js_error :=
  mk_error None ("Cannot read properties of undefined (reading '" ++ prop ++ "')")%string.

Definition code_is (e : js_error) (c : string) : bool :=
  match code e with Some c' => String.eqb c' c | None => false end.

Record response : Type := mk_response { status : Z; body : json }.

Definition q_lt (a b : Q) : bool := negb (Qle_bool b a).

(** ** Sanitization (mainGpt.js, lines 42-45)

    [message.replace(RE1, '').replace(/<[^>]*>/g, '').trim()] where RE1 is
    [/<script\b[^<]* (?: (?!<\/script>) <[^<]* )* <\/script>/gi] (spaces added). *)
Module Sanitize.

(** The [i] flag: ECMAScript's non-unicode case folding maps no non-ASCII code
    unit to an ASCII letter, so folding the ASCII letters is exact. *)
Definition to_lower (u : Z) : Z := if (65 <=? u) && (u <=? 90) then u + 32 else u.

(** [\w] without the [u] flag: [A-Za-z0-9_]. *)
Definition is_word_char (u : Z) : bool :=
  ((48 <=? u) && (u <=? 57)) || ((65 <=? u) && (u <=? 90))
  || ((97 <=? u) && (u <=? 122)) || (u =? 95).

(** [p] (lower case) is a case-insensitive prefix of [s]. *)
Fixpoint prefix_ci (p s : jsstring) : bool :=
  match p, s with
  | [], _ => true
  | a :: p', b :: s' => (to_lower b =? a) && prefix_ci p' s'
  | _ :: _, [] => false
  end.

Definition script_open : jsstring := js "<script".
Definition script_close : jsstring := js "</script>".

(** [<script\b] matches at the start of [s]. *)
Definition script_opens (s : jsstring) : bool :=
  prefix_ci script_open s
  && match skipn 7 s with [] => true | u :: _ => negb (is_word_char u) end.

(** The rest of RE1 after [<script\b]: the pattern cannot step over a
    [</script>], so it ends at the first one; the text after it is returned. *)
Fixpoint after_script_close (s : jsstring) : option jsstring :=
  match s with
  | [] => None
  | c :: rest =>
      if prefix_ci script_close (c :: rest) then Some (skipn 9 (c :: rest))
      else after_script_close rest
  end.

(** The global replace scans left to right; after a match it resumes behind
    it, otherwise it keeps the code unit and moves on. [fuel] bounds the
    number of steps (each consumes at least one code unit). *)
Fixpoint strip_scripts_go (fuel : nat) (s : jsstring) : jsstring :=
  match fuel with
  | O => s
  | S f =>
      match s with
      | [] => []
      | c :: rest =>
          if script_opens s then
            match after_script_close (skipn 7 s) with
            | Some s' => strip_scripts_go f s'
            | None => c :: strip_scripts_go f rest
            end
          else c :: strip_scripts_go f rest
      end
  end.

Definition strip_scripts (s : jsstring) : jsstring := strip_scripts_go (List.length s) s.

(** [<[^>]*>] matches at a ['<'] exactly when a ['>'] follows somewhere, and
    then ends at the first ['>'] ([[^>]*] may contain ['<']). *)
Fixpoint after_gt (s : jsstring) : option jsstring :=
  match s with
  | [] => None
  | c :: rest => if c =? 62 then Some rest else after_gt rest
  end.

Fixpoint strip_tags_go (fuel : nat) (s : jsstring) : jsstring :=
  match fuel with
  | O => s
  | S f =>
      match s with
      | [] => []
      | c :: rest =>
          if c =? 60 then
            match after_gt rest with
            | Some s' => strip_tags_go f s'
            | None => c :: strip_tags_go f rest
            end
          else c :: strip_tags_go f rest
      end
  end.

Definition strip_tags (s : jsstring) : jsstring := strip_tags_go (List.length s) s.

(** [String.prototype.trim]: WhiteSpace (including every Zs code point) and
    LineTerminator code units. *)
Definition is_js_whitespace (u : Z) : bool :=
  (u =? 9) || (u =? 10) || (u =? 11) || (u =? 12) || (u =? 13) || (u =? 32)
  || (u =? 160) || (u =? 5760) || ((8192 <=? u) && (u <=? 8202))
  || (u =? 8232) || (u =? 8233) || (u =? 8239) || (u =? 8287)
  || (u =? 12288) || (u =? 65279).

Fixpoint trim_start (s : jsstring) : jsstring :=
  match s with
  | [] => []
  | c :: rest => if is_js_whitespace c then trim_start rest else s
  end.

Definition trim (s : jsstring) : jsstring := rev (trim_start (rev (trim_start s))).

Definition sanitize (message : jsstring) : jsstring :=
  trim (strip_tags (strip_scripts message)).

(** Some ['<'] of [s] is followed, later in [s], by a ['>']: [s] has a
    substring that starts with ['<'] and ends with ['>']. *)
Fixpoint has_tag (s : jsstring) : bool :=
  match s with
  | [] => false
  | c :: rest => ((c =? 60) && existsb (Z.eqb 62) rest) || has_tag rest
  end.

(** [s] is obtained from [t] by deleting code units: a subsequence. *)
Inductive subseq : jsstring -> jsstring -> Prop :=
| subseq_nil : subseq [] []
| subseq_keep (c : Z) (s t : jsstring) : subseq s t -> subseq (c :: s) (c :: t)
| subseq_drop (c : Z) (s t : jsstring) : subseq s t -> subseq s (c :: t).

End Sanitize.

(** ** The chat handlers (backend/mainGpt.js and backend/publicGpt.js) *)
Module Handlers.
Import Sanitize.

Record moderation_result : Type := mk_moderation_result {
  flagged : bool;
  categories : list (string * bool)   (* the [categories] object, in key order *)
}.

Record moderation_response : Type := mk_moderation_response {
  results : list moderation_result
}.

Record moderation_request : Type := mk_moderation_request {
  mod_model : string;
  mod_input : jsstring
}.

Record completion : Type := mk_completion {
  choices : list string;   (* [choices[i].message.content] *)
  usage : json;
  c_model : string
}.

Record completion_request : Type := mk_completion_request {
  cr_model : string;
  cr_messages : list (string * jsstring);   (* (role, content) *)
  cr_max_tokens : Q;
  cr_temperature : Q
}.

(** [openai.moderations.create] and [openai.chat.completions.create]: each
    call resolves ([inl]) or rejects with an error ([inr]). *)
Record openai_client : Type := mk_openai {
  moderations_create : moderation_request -> moderation_response + js_error;
  chat_completions_create : completion_request -> completion + js_error
}.

Inductive provider_call : Type :=
| CallModeration (r : moderation_request)
| CallCompletion (r : completion_request).

(** [req.body]; an absent field is [None]. *)
Record request_body : Type := mk_body {
  message : option jsstring;
  maxTokens : option Q;
  temperature : option Q
}.

Definition default_max_tokens : Q := 150 # 1.
Definition default_temperature : Q := 7 # 10.

Definition error_body (msg : string) : json := JObj [("error", JStr msg)].

Definition bad_request (msg : string) : response := mk_response 400 (error_body msg).

(** [Object.keys(categories).filter(key => categories[key])] *)
Definition flagged_keys (cats : list (string * bool)) : list string :=
  map fst (filter snd cats).

Fixpoint join (sep : string) (l : list string) : string :=
  match l with
  | [] => ""
  | [x] => x
  | x :: rest => (x ++ sep ++ join sep rest)%string
  end.

(** *** handleMainGpt *)

Definition usage_policy_message : string :=
  "Your message contains content that violates our usage policies. Please rephrase your question in a respectful and appropriate manner.".

(** The outer [catch (error)] of handleMainGpt. *)
Definition main_error_response (e : js_error) : response :=
  if code_is e "insufficient_quota" then
    mk_response 402 (error_body "Insufficient OpenAI quota")
  else if code_is e "invalid_api_key" then
    mk_response 401 (error_body "Invalid OpenAI API key")
  else
    mk_response 500 (JObj [("error", JStr "Internal server error");
                            ("details", JStr (err_message e))]).

(** STEP 3 to STEP 6 of handleMainGpt; [calls] are the calls made before. *)
Definition main_completion (openai : openai_client) (systemInstructions : jsstring)
    (sanitizedMessage : jsstring) (mt temp : Q) (calls : list provider_call)
    : response * list provider_call :=
  let creq := mk_completion_request "gpt-4o-mini"
                [("system", systemInstructions); ("user", sanitizedMessage)] mt temp in
  let calls' := calls ++ [CallCompletion creq] in
  match chat_completions_create openai creq with
  | inr error => (main_error_response error, calls')
  | inl completion =>
      match choices completion with
      | [] => (main_error_response (type_error "message"), calls')
      | response :: _ =>
          (mk_response 200 (JObj [("success", JBool true); ("response", JStr response);
                                  ("usage", usage completion);
                                  ("model", JStr (c_model completion))]), calls')
      end
  end.

Definition handleMainGpt (body : request_body) (openai : openai_client)
    (systemInstructions : jsstring) : response * list provider_call :=
  let mt := match maxTokens body with Some v => v | None => default_max_tokens end in
  let temp := match temperature body with Some v => v | None => default_temperature end in
  match message body with
  | None | Some [] => (bad_request "Message is required", [])
  | Some message =>
      if (4000 <? List.length message)%nat then
        (bad_request "Message too long. Maximum 4000 characters allowed.", [])
      else if q_lt mt 1 || q_lt 1000 mt then
        (bad_request "maxTokens must be between 1 and 1000", [])
      else if q_lt temp 0 || q_lt 1 temp then
        (bad_request "temperature must be between 0 and 1", [])
      else
        let sanitizedMessage := sanitize message in
        let mreq := mk_moderation_request "omni-moderation-latest" sanitizedMessage in
        let calls := [CallModeration mreq] in
        let continue := main_completion openai systemInstructions sanitizedMessage mt temp calls in
        match moderations_create openai mreq with
        | inr _ => continue         (* catch (moderationError): continue processing *)
        | inl moderation =>
            match results moderation with
            | [] => continue        (* TypeError on [results[0].flagged], same catch *)
            | moderationResult :: _ =>
                if flagged moderationResult then
                  (mk_response 400 (JObj [("error", JStr usage_policy_message);
                                          ("flagged", JBool true)]), calls)
                else continue
            end
        end
  end.

(** *** handlePublicGpt *)

(** The [catch (error)] of handlePublicGpt. *)
Definition public_error_response (e : js_error) : response :=
  if code_is e "invalid_api_key" then
    mk_response 500 (error_body "Invalid OpenAI API key")
  else if code_is e "insufficient_quota" then
    mk_response 500 (error_body "OpenAI quota exceeded")
  else if code_is e "rate_limit_exceeded" then
    mk_response 429 (error_body "OpenAI rate limit exceeded")
  else
    mk_response 500 (error_body "An error occurred while processing your request").

Definition public_completion (openai : openai_client) (systemInstructions : jsstring)
    (message : jsstring) (mt temp : Q) (calls : list provider_call)
    : response * list provider_call :=
  let creq := mk_completion_request "gpt-4o-mini"
                [("system", systemInstructions); ("user", message)] mt temp in
  let calls' := calls ++ [CallCompletion creq] in
  match chat_completions_create openai creq with
  | inr error => (public_error_response error, calls')
  | inl completion =>
      match choices completion with
      | [] => (public_error_response (type_error "message"), calls')
      | response :: _ =>
          (mk_response 200 (JObj [("response", JStr response); ("usage", usage completion);
                                  ("model", JStr (c_model completion))]), calls')
      end
  end.

Definition handlePublicGpt (body : request_body) (openai : openai_client)
    (systemInstructions : jsstring) : response * list provider_call :=
  let mt := match maxTokens body with Some v => v | None => default_max_tokens end in
  let temp := match temperature body with Some v => v | None => default_temperature end in
  match message body with
  | None | Some [] => (bad_request "Message is required and must be a string", [])
  | Some message =>
      if (List.length (trim message) =? 0)%nat then
        (bad_request "Message cannot be empty", [])
      else if q_lt mt 1 || q_lt 1000 mt then
        (bad_request "maxTokens must be between 1 and 1000", [])
      else
        let mreq := mk_moderation_request "text-moderation-latest" message in
        let calls := [CallModeration mreq] in
        match moderations_create openai mreq with
        | inr error => (public_error_response error, calls)
        | inl moderationResult =>
            match results moderationResult with
            | [] => (public_error_response (type_error "categories"), calls)
            | r0 :: _ =>
                let flaggedCategories := flagged_keys (categories r0) in
                if (0 <? List.length flaggedCategories)%nat then
                  (mk_response 400
                     (JObj [("error", JStr ("Content violates our policy: "
                                             ++ join ", " (flagged_keys (categories r0)))%string);
                            ("flagged", JBool true)]), calls)
                else public_completion openai systemInstructions message mt temp calls
            end
        end
  end.

(** The completion endpoint was called. *)
Definition calls_completion (calls : list provider_call) : bool :=
  existsb (fun c => match c with CallCompletion _ => true | _ => false end) calls.

(** Some string of a JSON body contains [s]. *)
Fixpoint json_mentions (s : string) (j : json) : bool :=
  match j with
  | JStr t => if String.index 0 s t then true else false
  | JArr l => existsb (json_mentions s) l
  | JObj l => existsb (fun kv => json_mentions s (snd kv)) l
  | _ => false
  end.

(** *** Predicates the claims are stated with *)

Definition mt_of (b : request_body) : Q :=
  match maxTokens b with Some v => v | None => default_max_tokens end.
Definition temp_of (b : request_body) : Q :=
  match temperature b with Some v => v | None => default_temperature end.






(** The status each handler gives a thrown error, as a table over its code. *)
Definition main_status_of_error (e : js_error) : Z :=
  if code_is e "insufficient_quota" then 402
  else if code_is e "invalid_api_key" then 401 else 500.

Definition public_status_of_error (e : js_error) : Z :=
  if code_is e "rate_limit_exceeded" then 429 else 500.

End Handlers.

(** ** Conversation and message storage (database-backend.js)

    Each operation builds a Supabase client carrying the caller's access
    token; here the token is the identity ([nat]) it authenticates.  The
    tables are lists of rows; a query is a function on the store. *)
Module Store.

Record conversation : Type := mk_conversation {
  conv_id : nat;
  conv_user : nat;       (* user_id *)
  conv_title : string
}.

Record message : Type := mk_message {
  msg_id : nat;
  msg_conv : nat;        (* conversation_id *)
  msg_role : string;
  msg_content : string
}.

Record store : Type := mk_store {
  conversations : list conversation;
  messages : list message;
  next_id : nat
}.

Definition empty_store : store := mk_store [] [] 0.

(** A small state and error monad: an operation either returns a value or
    throws an [Error] with a message. *)
Definition DB (A : Type) : Type := store -> (A + string) * store.

Definition ret {A} (a : A) : DB A := fun st => (inl a, st).
Definition throw {A} (msg : string) : DB A := fun st => (inr msg, st).
Definition bind {A B} (m : DB A) (k : A -> DB B) : DB B :=
  fun st => match m st with
            | (inl a, st') => k a st'
            | (inr e, st') => (inr e, st')
            end.
(** [if (error) throw new Error(msg)] after a Supabase call. *)
Definition or_throw {A} (m : DB A) (msg : string) : DB A :=
  fun st => match m st with
            | (inl a, st') => (inl a, st')
            | (inr _, st') => (inr msg, st')
            end.

Notation "x <- m ;; k" := (bind m (fun x => k)) (at level 61, m at next level, right associativity).

Definition owns (st : store) (uid cid : nat) : bool :=
  existsb (fun c => (conv_id c =? cid)%nat && (conv_user c =? uid)%nat) (conversations st).

Definition count_user (st : store) (uid : nat) : nat :=
  List.length (filter (fun c => (conv_user c =? uid)%nat) (conversations st)).

(** *** The hosted store

    Modelled from the spec: the row-level-security policies and the
    conversation-limit trigger of the database schema, which is not among the
    sources ("per-user row isolation and a trigger-enforced quota (max 3
    conversations per user)"; "a message belongs to exactly one conversation,
    transitively to one user").  A caller sees the conversations it owns and
    the messages of those conversations; reads, updates and deletes act on
    the visible rows only; an insert is refused unless the new row is the
    caller's, a conversation insert is refused by the trigger when its
    user already has 3 conversations, and a message insert is refused unless
    its role is user or assistant ("role in {user, assistant}"). *)
Definition conversation_limit : nat := 3.

Definition conv_visible (auth : nat) (c : conversation) : bool := (conv_user c =? auth)%nat.

Definition msg_visible (st : store) (auth : nat) (m : message) : bool :=
  owns st auth (msg_conv m).

(** [.from('conversations').insert([{ title, user_id }]).select().single()] *)
Definition sb_insert_conversation (auth user : nat) (title : string) : DB conversation :=
  fun st =>
    if negb (user =? auth)%nat then
      (inr "new row violates row-level security policy for table conversations", st)
    else if (conversation_limit <=? count_user st user)%nat then
      (inr "conversation limit reached", st)
    else
      let c := mk_conversation (next_id st) user title in
      (inl c, mk_store (conversations st ++ [c]) (messages st) (S (next_id st))).

(** [.from('conversations').select('*').eq('user_id', user)] *)
Definition sb_select_conversations (auth user : nat) : DB (list conversation) :=
  fun st =>
    (inl (filter (fun c => conv_visible auth c && (conv_user c =? user)%nat)
                 (conversations st)), st).

(** [.from('conversations').update({ title }).eq('id', cid).eq('user_id', user)] *)
Definition sb_update_title (auth cid user : nat) (title : string) : DB unit :=
  fun st =>
    (inl tt, mk_store
       (map (fun c => if conv_visible auth c && (conv_id c =? cid)%nat && (conv_user c =? user)%nat
                      then mk_conversation (conv_id c) (conv_user c) title else c)
            (conversations st))
       (messages st) (next_id st)).

(** [.from('messages').delete().eq('conversation_id', cid)] *)
Definition sb_delete_messages (auth cid : nat) : DB unit :=
  fun st =>
    (inl tt, mk_store (conversations st)
       (filter (fun m => negb (msg_visible st auth m && (msg_conv m =? cid)%nat)) (messages st))
       (next_id st)).

(** [.from('conversations').delete().eq('id', cid).eq('user_id', user)] *)
Definition sb_delete_conversation (auth cid user : nat) : DB unit :=
  fun st =>
    (inl tt, mk_store
       (filter (fun c => negb (conv_visible auth c && (conv_id c =? cid)%nat && (conv_user c =? user)%nat))
               (conversations st))
       (messages st) (next_id st)).

(** [.from('conversations').select('user_id').eq('id', cid).single()]:
    [.single()] errors unless exactly one row is returned. *)
Definition sb_select_conversation_user (auth cid : nat) : DB nat :=
  fun st =>
    match filter (fun c => conv_visible auth c && (conv_id c =? cid)%nat) (conversations st) with
    | [c] => (inl (conv_user c), st)
    | _ => (inr "JSON object requested, multiple (or no) rows returned", st)
    end.

(** [.from('messages').select('*').eq('conversation_id', cid)] *)
Definition sb_select_messages (auth cid : nat) : DB (list message) :=
  fun st =>
    (inl (filter (fun m => msg_visible st auth m && (msg_conv m =? cid)%nat) (messages st)), st).

(** The check constraint of the messages table: "role in {user, assistant}". *)
Definition message_role_ok (role : string) : bool :=
  String.eqb role "user" || String.eqb role "assistant".

(** [.from('messages').insert([{ conversation_id, role, content }]).select().single()] *)
Definition sb_insert_message (auth cid : nat) (role content : string) : DB message :=
  fun st =>
    if owns st auth cid then
      if message_role_ok role then
        let m := mk_message (next_id st) cid role content in
        (inl m, mk_store (conversations st) (messages st ++ [m]) (S (next_id st)))
      else (inr "new row for relation messages violates check constraint messages_role_check", st)
    else (inr "new row violates row-level security policy for table messages", st).

(** *** The operations of database-backend.js *)

Definition createConversation (userId : nat) (title : string) (accessToken : nat)
    : DB conversation :=
  or_throw (sb_insert_conversation accessToken userId title) "Failed to create conversation".

Definition getUserConversations (userId accessToken : nat) : DB (list conversation) :=
  or_throw (sb_select_conversations accessToken userId) "Failed to load conversations".

Definition updateConversationTitle (conversationId userId : nat) (newTitle : string)
    (accessToken : nat) : DB unit :=
  _ <- or_throw (sb_update_title accessToken conversationId userId newTitle)
         "Failed to update conversation" ;;
  ret tt.

Definition deleteConversation (conversationId userId accessToken : nat) : DB unit :=
  _ <- or_throw (sb_delete_messages accessToken conversationId)
         "Failed to delete conversation messages" ;;
  _ <- or_throw (sb_delete_conversation accessToken conversationId userId)
         "Failed to delete conversation" ;;
  ret tt.

Definition getConversationMessages (conversationId userId accessToken : nat)
    : DB (list message) :=
  owner <- or_throw (sb_select_conversation_user accessToken conversationId)
             "Conversation not found" ;;
  if negb (owner =? userId)%nat then throw "Unauthorized access to conversation"
  else or_throw (sb_select_messages accessToken conversationId) "Failed to load messages".

Definition addMessage (conversationId userId : nat) (role content : string)
    (accessToken : nat) : DB message :=
  owner <- or_throw (sb_select_conversation_user accessToken conversationId)
             "Conversation not found" ;;
  if negb (owner =? userId)%nat then throw "Unauthorized access to conversation"
  else or_throw (sb_insert_message accessToken conversationId role content)
         "Failed to add message".

(** The routes of backend.js: [res.json(result)], or on a thrown error
    [res.status(500).json({ error: error.message })]. *)
Definition route_response {A} (to_json : A -> json) (r : A + string) : response :=
  match r with
  | inl a => mk_response 200 (to_json a)
  | inr msg => mk_response 500 (JObj [("error", JStr msg)])
  end.

Definition success_json (_ : unit) : json := JObj [("success", JBool true)].

(** Every call a client can make, for the reachable states. *)
Inductive db_call : Type :=
| CreateConversation (userId : nat) (title : string) (accessToken : nat)
| GetUserConversations (userId accessToken : nat)
| UpdateConversationTitle (conversationId userId : nat) (newTitle : string) (accessToken : nat)
| DeleteConversation (conversationId userId accessToken : nat)
| GetConversationMessages (conversationId userId accessToken : nat)
| AddMessage (conversationId userId : nat) (role content : string) (accessToken : nat).

Definition run_call (c : db_call) (st : store) : store :=
  match c with
  | CreateConversation u t a => snd (createConversation u t a st)
  | GetUserConversations u a => snd (getUserConversations u a st)
  | UpdateConversationTitle cid u t a => snd (updateConversationTitle cid u t a st)
  | DeleteConversation cid u a => snd (deleteConversation cid u a st)
  | GetConversationMessages cid u a => snd (getConversationMessages cid u a st)
  | AddMessage cid u r m a => snd (addMessage cid u r m a st)
  end.

Inductive reachable : store -> Prop :=
| reachable_init : reachable empty_store
| reachable_step (c : db_call) (st : store) : reachable st -> reachable (run_call c st).

End Store.

(** ** Rate limiting (backend/rateLimiting.js)

    The two [rateLimit({...})] configurations, and the counting that
    express-rate-limit does with its default memory store: per key a hit
    counter and the end of its window; a hit at or after the end opens a new
    window of [windowMs]; a request is let through while the counter is at
    most [max]. *)
Module RateLimit.

Record limiter_request : Type := mk_request {
  sessionID : option string;
  ip : option string;
  remoteAddress : string;   (* req.connection.remoteAddress *)
  path : string
}.

Record rate_limit_options : Type := mk_options {
  windowMs : Z;
  max : nat;
  keyGenerator : limiter_request -> string;
  skip : limiter_request -> bool
}.

(** What the key generator reads besides the request: [new Date().toDateString()]
    at the time of the request and [process.env.RATE_LIMIT_SALT]. *)
Record limiter_env : Type := mk_env {
  date_string : string;
  RATE_LIMIT_SALT : option string
}.

Definition truthy (s : option string) : option string :=
  match s with Some "" | None => None | Some v => Some v end.

(** [req.ip] as the operand of [+]. *)
Definition ip_string (req : limiter_request) : string :=
  match ip req with Some a => a | None => "undefined" end.

Definition salt (env : limiter_env) : string :=
  match truthy (RATE_LIMIT_SALT env) with Some v => v | None => "default-salt" end.

(** The hashed text [req.ip + date + salt]. *)
Definition fallback_input (env : limiter_env) (req : limiter_request) : string :=
  (ip_string req ++ date_string env ++ salt env)%string.

(** [crypto.createHash('sha256').update(..).digest('hex')] is [sha256_hex]. *)
Definition limiter (sha256_hex : string -> string) (env : limiter_env) : rate_limit_options :=
  mk_options (15 * 60 * 1000) 50
    (fun req => match truthy (sessionID req) with
                | Some sid => sid
                | None => sha256_hex (fallback_input env req)
                end)
    (fun req => String.eqb (path req) "/health").

Definition publicRateLimit : rate_limit_options :=
  mk_options (15 * 60 * 1000) 10
    (fun req => match truthy (ip req) with Some a => a | None => remoteAddress req end)
    (fun _ => false).

(** The memory store: per key, the hit count and the end of its window. *)
Definition hit_store := string -> option (nat * Z).

Definition empty_hits : hit_store := fun _ => None.

Definition update_hits (st : hit_store) (k : string) (v : nat * Z) : hit_store :=
  fun k' => if String.eqb k' k then Some v else st k'.

(** One request at time [now] (ms): [None] when skipped, otherwise the key,
    the end of the window it is counted in, and whether it is let through. *)
Definition hit (o : rate_limit_options) (st : hit_store) (req : limiter_request) (now : Z)
    : option (string * Z * bool) * hit_store :=
  if skip o req then (None, st)
  else
    let k := keyGenerator o req in
    let '(n, reset) := match st k with
                       | Some (n, r) => if now <? r then (S n, r) else (1%nat, now + windowMs o)
                       | None => (1%nat, now + windowMs o)
                       end in
    (Some (k, reset, (n <=? max o)%nat), update_hits st k (n, reset)).

Fixpoint run_hits (o : rate_limit_options) (st : hit_store) (trace : list (limiter_request * Z))
    : list (string * Z * bool) * hit_store :=
  match trace with
  | [] => ([], st)
  | (req, now) :: rest =>
      let '(e, st') := hit o st req now in
      let '(log, st'') := run_hits o st' rest in
      (match e with Some x => x :: log | None => log end, st'')
  end.

(** The requests of [log] let through for key [k] in the window ending at [r]. *)
Definition allowed_in (log : list (string * Z * bool)) (k : string) (r : Z) : nat :=
  List.length (filter (fun '(k', r', ok) => String.eqb k' k && (r' =? r) && ok) log).

Definition entry_key (e : string * Z * bool) : string := fst (fst e).
Definition entry_window (e : string * Z * bool) : Z := snd (fst e).
Definition key_is (k : string) (e : string * Z * bool) : bool := String.eqb (entry_key e) k.

(** What the memory store knows about the log of hits so far: for each key,
    the windows it was counted in end no later than its current window, that
    window holds at most as many admitted hits as its counter, and no window
    of any key admitted more than [max] hits. *)
Definition hits_inv (o : rate_limit_options) (st : hit_store) (log : list (string * Z * bool)) : Prop :=
  (forall k, match st k with
             | None => forall e, In e log -> entry_key e <> k
             | Some (n, rk) =>
                 (forall e, In e log -> entry_key e = k -> entry_window e <= rk)
                 /\ (allowed_in log k rk <= n)%nat
             end)
  /\ (forall k r, (allowed_in log k r <= max o)%nat).

End RateLimit.

(** ** src/src/encryption.js

    The module runs in the browser: [TextEncoder], [TextDecoder], [btoa],
    [atob] and [crypto.subtle] are the platform's. The first four are written
    out after the WHATWG Encoding and HTML standards; [crypto.subtle] is a
    record of functions whose only assumed property is AES-GCM's contract
    ([gcm_correct]). The promises are modelled by their resolved values. *)
Module Encryption.

(** *** Strings as scalar values ([TextEncoder] side) *)

Definition is_high (c : Z) : bool := (55296 <=? c) && (c <=? 56319).   (* 0xD800-0xDBFF *)
Definition is_low (c : Z) : bool := (56320 <=? c) && (c <=? 57343).    (* 0xDC00-0xDFFF *)

(** Convert a JS string to a scalar value string: a surrogate pair becomes its
    code point, a lone surrogate becomes U+FFFD. *)
Fixpoint to_scalars (s : jsstring) : list Z :=
  match s with
  | [] => []
  | c :: rest =>
      if is_high c then
        match rest with
        | d :: rest' =>
            if is_low d then (65536 + Z.shiftl (c - 55296) 10 + (d - 56320)) :: to_scalars rest'
            else 65533 :: to_scalars rest
        | [] => [65533]
        end
      else if is_low c then 65533 :: to_scalars rest
      else c :: to_scalars rest
  end.

(** A code point as UTF-16 code units (how a decoded string is built). *)
Definition utf16_of_scalar (cp : Z) : list Z :=
  if cp <? 65536 then [cp]
  else [55296 + Z.shiftr (cp - 65536) 10; 56320 + Z.land (cp - 65536) 1023].

Definition from_scalars (cps : list Z) : jsstring := flat_map utf16_of_scalar cps.

(** The UTF-8 encoder. *)
Definition utf8_encode_cp (cp : Z) : list Z :=
  if cp <? 128 then [cp]
  else if cp <? 2048 then [Z.lor 192 (Z.shiftr cp 6); Z.lor 128 (Z.land cp 63)]
  else if cp <? 65536 then
    [Z.lor 224 (Z.shiftr cp 12); Z.lor 128 (Z.land (Z.shiftr cp 6) 63); Z.lor 128 (Z.land cp 63)]
  else
    [Z.lor 240 (Z.shiftr cp 18); Z.lor 128 (Z.land (Z.shiftr cp 12) 63);
     Z.lor 128 (Z.land (Z.shiftr cp 6) 63); Z.lor 128 (Z.land cp 63)].

(** [new TextEncoder().encode(s)] *)
Definition TextEncoder_encode (s : jsstring) : list Z := flat_map utf8_encode_cp (to_scalars s).

(** *** The UTF-8 decoder with replacement ([TextDecoder] side) *)

Record u8state : Type := mk_u8 {
  bytes_needed : Z; bytes_seen : Z; code_point : Z; lower_boundary : Z; upper_boundary : Z
}.

Definition u8_init : u8state := mk_u8 0 0 0 128 191.

(** The decoder's handler for a byte when no sequence is open. *)
Definition start_byte (b : Z) : u8state * list Z :=
  if b <=? 127 then (u8_init, [b])
  else if (194 <=? b) && (b <=? 223) then (mk_u8 1 0 (Z.land b 31) 128 191, [])
  else if (224 <=? b) && (b <=? 239) then
    (mk_u8 2 0 (Z.land b 15) (if b =? 224 then 160 else 128) (if b =? 237 then 159 else 191), [])
  else if (240 <=? b) && (b <=? 244) then
    (mk_u8 3 0 (Z.land b 7) (if b =? 240 then 144 else 128) (if b =? 244 then 143 else 191), [])
  else (u8_init, [65533]).

(** The handler for one byte. A byte outside the boundaries ends the open
    sequence with U+FFFD and is then processed again from the initial state,
    which is [start_byte]. *)
Definition step (st : u8state) (b : Z) : u8state * list Z :=
  if bytes_needed st =? 0 then start_byte b
  else if (b <? lower_boundary st) || (upper_boundary st <? b) then
    let '(st', out) := start_byte b in (st', 65533 :: out)
  else
    let cp' := Z.lor (Z.shiftl (code_point st) 6) (Z.land b 63) in
    if bytes_seen st + 1 =? bytes_needed st then (u8_init, [cp'])
    else (mk_u8 (bytes_needed st) (bytes_seen st + 1) cp' 128 191, []).

Fixpoint utf8_decode_go (st : u8state) (bs : list Z) : list Z :=
  match bs with
  | [] => if bytes_needed st =? 0 then [] else [65533]
  | b :: rest => let '(st', out) := step st b in out ++ utf8_decode_go st' rest
  end.

(** The handlers run over a prefix of the stream: output and final state. *)
Fixpoint run (st : u8state) (bs : list Z) : list Z * u8state :=
  match bs with
  | [] => ([], st)
  | b :: rest =>
      let '(st', out) := step st b in
      let '(out', st'') := run st' rest in (out ++ out', st'')
  end.

(** With [ignoreBOM] false, a leading U+FEFF of the output is dropped. *)
Definition strip_bom (cps : list Z) : list Z :=
  match cps with c :: rest => if c =? 65279 then rest else cps | [] => [] end.

(** [new TextDecoder().decode(bytes)] *)
Definition TextDecoder_decode (bs : list Z) : jsstring :=
  from_scalars (strip_bom (utf8_decode_go u8_init bs)).

(** *** Base64 ([btoa], forgiving-base64 [atob]) *)

Definition b64_char (v : Z) : Z :=
  if v <? 26 then 65 + v else if v <? 52 then 71 + v else if v <? 62 then v - 4
  else if v =? 62 then 43 else 47.

Definition b64_value (c : Z) : option Z :=
  if (65 <=? c) && (c <=? 90) then Some (c - 65)
  else if (97 <=? c) && (c <=? 122) then Some (c - 71)
  else if (48 <=? c) && (c <=? 57) then Some (c + 4)
  else if c =? 43 then Some 62
  else if c =? 47 then Some 63
  else None.

(** The four 6-bit groups of three bytes [x y z], and the bytes read back
    from four 6-bit groups [a b c d]. *)
Definition sx0 (x : Z) : Z := Z.shiftr x 2.
Definition sx1 (x y : Z) : Z := Z.lor (Z.shiftl (Z.land x 3) 4) (Z.shiftr y 4).
Definition sx2 (y z : Z) : Z := Z.lor (Z.shiftl (Z.land y 15) 2) (Z.shiftr z 6).
Definition sx3 (z : Z) : Z := Z.land z 63.
Definition by0 (a b : Z) : Z := Z.lor (Z.shiftl a 2) (Z.shiftr b 4).
Definition by1 (b c : Z) : Z := Z.lor (Z.shiftl (Z.land b 15) 4) (Z.shiftr c 2).
Definition by2 (c d : Z) : Z := Z.lor (Z.shiftl (Z.land c 3) 6) d.

(** A missing last byte is taken as zero bits. *)
Fixpoint sextets_of (l : list Z) : list Z :=
  match l with
  | x :: y :: z :: rest => sx0 x :: sx1 x y :: sx2 y z :: sx3 z :: sextets_of rest
  | [x; y] => [sx0 x; sx1 x y; sx2 y 0]
  | [x] => [sx0 x; sx1 x 0]
  | [] => []
  end.

Fixpoint pad_count (l : list Z) : nat :=
  match l with
  | _ :: _ :: _ :: rest => pad_count rest
  | [_; _] => 1
  | [_] => 2
  | [] => 0
  end.

(** [btoa(s)]: [None] is the InvalidCharacterError for a code unit above 255. *)
Definition btoa (s : jsstring) : option jsstring :=
  if forallb (fun c => (0 <=? c) && (c <=? 255)) s
  then Some (map b64_char (sextets_of s) ++ repeat 61 (pad_count s))
  else None.

Definition is_ascii_whitespace (c : Z) : bool :=
  (c =? 9) || (c =? 10) || (c =? 12) || (c =? 13) || (c =? 32).

(** Remove one or two trailing [=]. *)
Definition strip_padding (s : jsstring) : jsstring :=
  match rev s with
  | c1 :: r1 =>
      if c1 =? 61 then
        match r1 with
        | c2 :: r2 => if c2 =? 61 then rev r2 else rev r1
        | [] => rev r1
        end
      else s
  | [] => s
  end.

Fixpoint map_option (f : Z -> option Z) (l : list Z) : option (list Z) :=
  match l with
  | [] => Some []
  | x :: rest =>
      match f x, map_option f rest with Some y, Some ys => Some (y :: ys) | _, _ => None end
  end.

Fixpoint decode_sextets (l : list Z) : list Z :=
  match l with
  | a :: b :: c :: d :: rest => by0 a b :: by1 b c :: by2 c d :: decode_sextets rest
  | [a; b; c] => [by0 a b; by1 b c]
  | [a; b] => [by0 a b]
  | _ => []
  end.

(** [atob(s)]: [None] is the InvalidCharacterError. *)
Definition atob (s : jsstring) : option (list Z) :=
  let s1 := filter (fun c => negb (is_ascii_whitespace c)) s in
  let s2 := if (Nat.modulo (List.length s1) 4 =? 0)%nat then strip_padding s1 else s1 in
  if (Nat.modulo (List.length s2) 4 =? 1)%nat then None
  else match map_option b64_value s2 with
       | Some sx => Some (decode_sextets sx)
       | None => None
       end.

(** *** [crypto.subtle] *)

(** Keys are their raw bytes; [pbkdf2_aes_gcm_key password salt iterations] is
    [deriveKey] with PBKDF2 and SHA-256 to a 256-bit AES-GCM key. *)
Record subtle_crypto : Type := mk_subtle {
  digest_sha256 : list Z -> list Z;
  pbkdf2_aes_gcm_key : list Z -> list Z -> Z -> list Z;
  aes_gcm_encrypt : list Z -> list Z -> list Z -> list Z;
  aes_gcm_decrypt : list Z -> list Z -> list Z -> option (list Z)
}.

Definition is_byte (b : Z) : bool := (0 <=? b) && (b <? 256).

(** AES-GCM's contract: decryption under the same key and IV gives back the
    plaintext, and the ciphertext is bytes, with a 16-byte tag appended. *)
Definition gcm_correct (c : subtle_crypto) : Prop :=
  forall key iv p, forallb is_byte p = true ->
    forallb is_byte (aes_gcm_encrypt c key iv p) = true
    /\ List.length (aes_gcm_encrypt c key iv p) = (List.length p + 16)%nat
    /\ aes_gcm_decrypt c key iv (aes_gcm_encrypt c key iv p) = Some p.

(** *** The module's functions *)

Definition generateUserSalt (c : subtle_crypto) (userId : jsstring) : list Z :=
  firstn 16 (digest_sha256 c (TextEncoder_encode userId)).

Definition deriveKeyFromUserId (c : subtle_crypto) (userId : jsstring) : list Z :=
  pbkdf2_aes_gcm_key c (TextEncoder_encode userId) (generateUserSalt c userId) 25000.

Definition encrypt_failed : js_error := mk_error None "Failed to encrypt text".
Definition decrypt_failed : js_error := mk_error None "Failed to decrypt text".

(** [random i] is the [i]-th value [crypto.getRandomValues] writes; the
    [Uint8Array] keeps it modulo 256. The [!userId] error is thrown inside the
    [try] and replaced by the catch's error. *)
Definition encryptText (c : subtle_crypto) (random : nat -> Z) (text userId : jsstring)
    : jsstring + js_error :=
  match userId with
  | [] => inr encrypt_failed
  | _ =>
      let key := deriveKeyFromUserId c userId in
      let iv := map (fun i => random i mod 256) (seq 0 12) in
      let encoded := TextEncoder_encode text in
      let encrypted := aes_gcm_encrypt c key iv encoded in
      let combined := iv ++ encrypted in
      match btoa combined with Some s => inl s | None => inr encrypt_failed end
  end.

Definition isEncrypted (text : jsstring) : bool :=
  match atob text with
  | Some decoded => (13 <=? List.length decoded)%nat
  | None => false
  end.

Definition decryptText (c : subtle_crypto) (encryptedText userId : jsstring) : jsstring + js_error :=
  match userId with
  | [] => inr decrypt_failed
  | _ =>
      if negb (isEncrypted encryptedText) then inl encryptedText
      else
        match atob encryptedText with
        | None => inr decrypt_failed
        | Some decoded =>
            let iv := firstn 12 decoded in
            let encryptedData := skipn 12 decoded in
            let key := deriveKeyFromUserId c userId in
            match aes_gcm_decrypt c key iv encryptedData with
            | Some decrypted => inl (TextDecoder_decode decrypted)
            | None => inr decrypt_failed
            end
        end
  end.

(** [decryptText(await encryptText(text, userId), userId)] *)
Definition encrypt_then_decrypt (c : subtle_crypto) (random : nat -> Z) (text userId : jsstring)
    : jsstring + js_error :=
  match encryptText c random text userId with
  | inl enc => decryptText c enc userId
  | inr e => inr e
  end.

(** *** Properties of strings used in the statements *)

(** Well-formed UTF-16: code units, every high surrogate followed by a low one,
    no lone low surrogate. *)
Fixpoint well_formed_utf16 (s : jsstring) : bool :=
  match s with
  | [] => true
  | c :: rest =>
      (0 <=? c) && (c <=? 65535) &&
      (if is_high c then
         match rest with d :: rest' => is_low d && well_formed_utf16 rest' | [] => false end
       else negb (is_low c) && well_formed_utf16 rest)
  end.

Definition starts_with_bom (s : jsstring) : bool :=
  match s with c :: _ => c =? 65279 | [] => false end.

Definition valid_scalar (cp : Z) : bool :=
  ((0 <=? cp) && (cp <? 55296)) || ((57344 <=? cp) && (cp <? 1114112)).

(** *** Decision procedures run by the proofs *)

Fixpoint check_range (f : Z -> bool) (start : Z) (n : nat) : bool :=
  match n with
  | O => true
  | S n' => if f start then check_range f (start + 1) n' else false
  end.

Definition is_init (s : u8state) : bool :=
  (bytes_needed s =? 0) && (bytes_seen s =? 0) && (code_point s =? 0)
  && (lower_boundary s =? 128) && (upper_boundary s =? 191).

(** Encoding [cp] gives bytes that the decoder turns back into [cp], ending
    in its initial state. *)
Definition check_cp (cp : Z) : bool :=
  forallb is_byte (utf8_encode_cp cp) &&
  let '(out, st) := run u8_init (utf8_encode_cp cp) in
  match out with [c] => (c =? cp) && is_init st | _ => false end.

Definition sextet (v : Z) : bool := (0 <=? v) && (v <? 64).

Definition check_b64_char (v : Z) : bool :=
  match b64_value (b64_char v) with Some w => w =? v | None => false end
  && negb (is_ascii_whitespace (b64_char v)) && negb (b64_char v =? 61).

Definition check_byte (x : Z) : bool :=
  sextet (sx0 x) && sextet (sx3 x)
  && (Z.lor (Z.shiftl (Z.shiftr x 4) 4) (Z.land x 15) =? x)
  && (Z.lor (Z.shiftl (Z.shiftr x 6) 6) (Z.land x 63) =? x).

Definition check_byte_pair (x y : Z) : bool :=
  (by0 (sx0 x) (sx1 x y) =? x)
  && (Z.land (sx1 x y) 15 =? Z.shiftr y 4)
  && (Z.shiftr (sx2 x y) 2 =? Z.land x 15)
  && (Z.land (sx2 x y) 3 =? Z.shiftr y 6)
  && sextet (sx1 x y) && sextet (sx2 x y).

End Encryption.

(** ** Concrete inputs *)
(** ** Authentication and the routes (backend/auth.js, backend/utilityRoutes.js,
    backend/authRoutes.js, and their wiring in setupRoutes of
    backend/rateLimiting.js)

    The Supabase clients and the [db] module are passed in, as the OpenAI
    client is to the handlers: each is a record of the calls the code makes,
    each call resolving ([inl]) or rejecting with an error ([inr]). *)
Module Routes.
Import Handlers.

(** The [user] object of [supabase.auth.getUser]; the routes read its [id]. *)
Record auth_user : Type := mk_user { user_id : nat }.

(** The resolved value of [supabase.auth.getUser(token)]: [data.user] and [error]. *)
Record get_user_response : Type := mk_get_user_response {
  data_user : option auth_user;
  gu_error : option js_error
}.

Record supabase_client : Type := mk_supabase {
  auth_getUser : jsstring -> get_user_response + js_error
}.

(** [String.prototype.startsWith] *)
Fixpoint startsWith (prefix s : jsstring) : bool :=
  match prefix, s with
  | [], _ => true
  | a :: p', b :: s' => (a =? b) && startsWith p' s'
  | _ :: _, [] => false
  end.

(** *** authenticateUser *)

(** The middleware either calls [next()] after setting [req.user], or answers. *)
Inductive auth_outcome : Type :=
| AuthNext (user : auth_user)
| AuthRespond (r : response).

(** The outcome and the tokens passed to [getUser]. *)
Definition authenticateUser (supabase : supabase_client) (authHeader : option jsstring)
    : auth_outcome * list jsstring :=
  let unauthorized msg := AuthRespond (mk_response 401 (error_body msg)) in
  match authHeader with
  | None => (unauthorized "No valid authorization token provided", [])
  | Some h =>
      if match h with [] => true | _ => false end || negb (startsWith (js "Bearer ") h) then
        (unauthorized "No valid authorization token provided", [])
      else
        let token := skipn 7 h in
        match auth_getUser supabase token with
        | inr _ => (unauthorized "Authentication failed", [token])
        | inl r =>
            match gu_error r, data_user r with
            | None, Some user => (AuthNext user, [token])
            | _, _ => (unauthorized "Invalid or expired token", [token])
            end
        end
  end.

(** *** The database routes *)

Record route_request : Type := mk_route_request {
  headers_authorization : option jsstring;   (* req.headers.authorization *)
  req_user : option auth_user;               (* req.user *)
  params_id : jsstring;                      (* req.params.id *)
  req_body : list (string * json)            (* req.body, as express.json parsed it *)
}.

(** A property of [req.body]; [JSON.parse] keeps the last of duplicate keys. *)
Definition body_field (b : list (string * json)) (k : string) : option json :=
  match find (fun kv => String.eqb (fst kv) k) (rev b) with
  | Some kv => Some (snd kv)
  | None => None
  end.

(** [!v] on a JSON value ([undefined] is [None]). *)
Definition falsy (v : option json) : bool :=
  match v with
  | None | Some JNull | Some (JBool false) => true
  | Some (JStr s) => String.eqb s ""
  | Some (JNum q) => Qeq_bool q 0
  | Some _ => false
  end.

Record db_api : Type := mk_db {
  db_createConversation : nat -> json -> jsstring -> json + js_error;
  db_getUserConversations : nat -> jsstring -> json + js_error;
  db_updateConversationTitle : jsstring -> nat -> json -> jsstring -> json + js_error;
  db_deleteConversation : jsstring -> nat -> jsstring -> json + js_error;
  db_getConversationMessages : jsstring -> nat -> jsstring -> json + js_error;
  db_addMessage : jsstring -> nat -> json -> json -> jsstring -> json + js_error
}.

Inductive db_request : Type :=
| DbCreateConversation (userId : nat) (title : json) (accessToken : jsstring)
| DbGetUserConversations (userId : nat) (accessToken : jsstring)
| DbUpdateConversationTitle (conversationId : jsstring) (userId : nat) (title : json)
    (accessToken : jsstring)
| DbDeleteConversation (conversationId : jsstring) (userId : nat) (accessToken : jsstring)
| DbGetConversationMessages (conversationId : jsstring) (userId : nat) (accessToken : jsstring)
| DbAddMessage (conversationId : jsstring) (userId : nat) (role content : json)
    (accessToken : jsstring).

Definition run_db (db : db_api) (r : db_request) : json + js_error :=
  match r with
  | DbCreateConversation u t a => db_createConversation db u t a
  | DbGetUserConversations u a => db_getUserConversations db u a
  | DbUpdateConversationTitle c u t a => db_updateConversationTitle db c u t a
  | DbDeleteConversation c u a => db_deleteConversation db c u a
  | DbGetConversationMessages c u a => db_getConversationMessages db c u a
  | DbAddMessage c u r m a => db_addMessage db c u r m a
  end.

Definition request_user (r : db_request) : nat :=
  match r with
  | DbCreateConversation u _ _ | DbGetUserConversations u _
  | DbUpdateConversationTitle _ u _ _ | DbDeleteConversation _ u _
  | DbGetConversationMessages _ u _ | DbAddMessage _ u _ _ _ => u
  end.

Definition request_token (r : db_request) : jsstring :=
  match r with
  | DbCreateConversation _ _ a | DbGetUserConversations _ a
  | DbUpdateConversationTitle _ _ _ a | DbDeleteConversation _ _ a
  | DbGetConversationMessages _ _ a | DbAddMessage _ _ _ _ a => a
  end.

(** [res.json(result)], or in the [catch]: [res.status(500).json({ error: error.message })]. *)
Definition db_response (r : json + js_error) : response :=
  match r with
  | inl v => mk_response 200 v
  | inr e => mk_response 500 (JObj [("error", JStr (err_message e))])
  end.

(** The route's response and the [db] calls it made. *)
Definition call_db (db : db_api) (r : db_request) : response * list db_request :=
  (db_response (run_db db r), [r]).

(** [const userId = req.user.id]: a TypeError without [req.user]. *)
Definition with_user (req : route_request) (k : nat -> response * list db_request)
    : response * list db_request :=
  match req_user req with
  | None => (db_response (inr (type_error "id")), [])
  | Some u => k (user_id u)
  end.

(** [req.headers.authorization.substring(7)]: a TypeError without the header. *)
Definition with_token (req : route_request) (k : jsstring -> response * list db_request)
    : response * list db_request :=
  match headers_authorization req with
  | None => (db_response (inr (type_error "substring")), [])
  | Some h => k (skipn 7 h)
  end.

Definition createConversation_route (db : db_api) (req : route_request)
    : response * list db_request :=
  let title := body_field (req_body req) "title" in
  with_user req (fun userId =>
    match title with
    | Some t => if falsy title then (bad_request "Title is required", [])
                else with_token req (fun accessToken =>
                       call_db db (DbCreateConversation userId t accessToken))
    | None => (bad_request "Title is required", [])
    end).

Definition getUserConversations_route (db : db_api) (req : route_request)
    : response * list db_request :=
  with_user req (fun userId =>
    with_token req (fun accessToken => call_db db (DbGetUserConversations userId accessToken))).

Definition updateConversationTitle_route (db : db_api) (req : route_request)
    : response * list db_request :=
  let title := body_field (req_body req) "title" in
  let conversationId := params_id req in
  with_user req (fun userId =>
    match title with
    | Some t => if falsy title then (bad_request "Title is required", [])
                else with_token req (fun accessToken =>
                       call_db db (DbUpdateConversationTitle conversationId userId t accessToken))
    | None => (bad_request "Title is required", [])
    end).

Definition deleteConversation_route (db : db_api) (req : route_request)
    : response * list db_request :=
  let conversationId := params_id req in
  with_user req (fun userId =>
    with_token req (fun accessToken =>
      call_db db (DbDeleteConversation conversationId userId accessToken))).

Definition getConversationMessages_route (db : db_api) (req : route_request)
    : response * list db_request :=
  let conversationId := params_id req in
  with_user req (fun userId =>
    with_token req (fun accessToken =>
      call_db db (DbGetConversationMessages conversationId userId accessToken))).

Definition addMessage_route (db : db_api) (req : route_request)
    : response * list db_request :=
  let role := body_field (req_body req) "role" in
  let content := body_field (req_body req) "content" in
  let conversationId := params_id req in
  with_user req (fun userId =>
    match role, content with
    | Some r, Some c =>
        if falsy role || falsy content then (bad_request "Role and content are required", [])
        else with_token req (fun accessToken =>
               call_db db (DbAddMessage conversationId userId r c accessToken))
    | _, _ => (bad_request "Role and content are required", [])
    end).

Inductive route : Type :=
| RCreateConversation | RGetUserConversations | RUpdateConversationTitle
| RDeleteConversation | RGetConversationMessages | RAddMessage.

Definition handle_route (r : route) : db_api -> route_request -> response * list db_request :=
  match r with
  | RCreateConversation => createConversation_route
  | RGetUserConversations => getUserConversations_route
  | RUpdateConversationTitle => updateConversationTitle_route
  | RDeleteConversation => deleteConversation_route
  | RGetConversationMessages => getConversationMessages_route
  | RAddMessage => addMessage_route
  end.

(** setupRoutes: each database route runs behind [authenticateUser], which
    sets [req.user] before [next()]. The response, the tokens given to
    [getUser] and the [db] calls. *)
Definition protected_route (supabase : supabase_client) (r : route) (db : db_api)
    (req : route_request) : response * list jsstring * list db_request :=
  match authenticateUser supabase (headers_authorization req) with
  | (AuthRespond resp, tokens) => (resp, tokens, [])
  | (AuthNext u, tokens) =>
      let '(resp, calls) := handle_route r db
          (mk_route_request (headers_authorization req) (Some u) (params_id req) (req_body req)) in
      (resp, tokens, calls)
  end.

(** *** handleResendConfirmation *)

Record link_request : Type := mk_link_request {
  link_type : string;
  link_email : string;
  redirectTo : string
}.

(** The [error] of [generateLink]; its [message] may be absent. *)
Record auth_error : Type := mk_auth_error { ae_message : option string }.

Record link_response : Type := mk_link_response { resendError : option auth_error }.

Record supabase_admin : Type := mk_admin {
  admin_generateLink : link_request -> link_response + js_error
}.

Record resend_request : Type := mk_resend_request {
  resend_body : list (string * json);
  protocol : string;                 (* req.protocol *)
  host : option string               (* req.get('host') *)
}.

(** [String.prototype.includes] *)
Definition includes (s sub : string) : bool :=
  match String.index 0 sub s with Some _ => true | None => false end.

Definition internal_error : response := mk_response 500 (error_body "Internal server error").

Definition handleResendConfirmation (supabase : supabase_admin) (req : resend_request)
    : response * list link_request :=
  match body_field (resend_body req) "email" with
  | Some (JStr email) =>
      if String.eqb email "" then (bad_request "Email is required", [])
      else
        let host_s := match host req with Some h => h | None => "undefined" end in
        let lreq := mk_link_request "signup" email (protocol req ++ "://" ++ host_s ++ "/") in
        match admin_generateLink supabase lreq with
        | inr _ => (internal_error, [lreq])
        | inl r =>
            match resendError r with
            | None =>
                (mk_response 200 (JObj [("success", JBool true);
                                        ("message", JStr "Confirmation email sent successfully")]),
                 [lreq])
            | Some e =>
                match ae_message e with
                | None => (internal_error, [lreq])   (* TypeError on [undefined.includes] *)
                | Some msg =>
                    if includes msg "already been registered" then
                      (bad_request "Email already registered. Please check your inbox for the confirmation link.",
                       [lreq])
                    else (mk_response 500 (error_body "Failed to resend confirmation email"), [lreq])
                end
            end
        end
  | _ => (bad_request "Email is required", [])
  end.

End Routes.

Module Fixtures.
Import Handlers.

Definition sys0 : jsstring := js "You are Honorably.".
Definition body_hi : request_body := mk_body (Some (js "hi")) None None.

Definition clean_moderation : moderation_response :=
  mk_moderation_response [mk_moderation_result false [("harassment", false); ("violence", false)]].
Definition flagged_moderation : moderation_response :=
  mk_moderation_response [mk_moderation_result true [("harassment", true); ("violence", false)]].
Definition hello_completion : completion := mk_completion ["Hello!"] JNull "gpt-4o-mini".

Definition openai_ok : openai_client :=
  mk_openai (fun _ => inl clean_moderation) (fun _ => inl hello_completion).
Definition openai_flagged : openai_client :=
  mk_openai (fun _ => inl flagged_moderation) (fun _ => inl hello_completion).
Definition openai_moderation_down : openai_client :=
  mk_openai (fun _ => inr (mk_error None "Connection error.")) (fun _ => inl hello_completion).
Definition quota_error : js_error := mk_error (Some "insufficient_quota") "You exceeded your current quota".
Definition openai_quota : openai_client :=
  mk_openai (fun _ => inl clean_moderation) (fun _ => inr quota_error).

Import Store.
(** User 7 owns conversation 1, which has two messages. *)
Definition st_demo : store :=
  mk_store [mk_conversation 1 7 "Algebra"]
           [mk_message 2 1 "user" "What is a group?"; mk_message 3 1 "assistant" "A set with..."] 4.

(** A stand-in for [crypto.subtle] meeting [gcm_correct]: the ciphertext is
    the plaintext followed by a zero tag, which decryption checks. *)
Definition toy_subtle : Encryption.subtle_crypto :=
  Encryption.mk_subtle
    (fun b => b)
    (fun password salt _ => password ++ salt)
    (fun _ _ p => p ++ repeat 0 16)
    (fun _ _ ct =>
       let n := (List.length ct - 16)%nat in
       if (16 <=? List.length ct)%nat && forallb (fun b => b =? 0) (skipn n ct)
       then Some (firstn n ct) else None).

Definition zero_random : nat -> Z := fun _ => 0.
Definition user7 : jsstring := js "7".

Import Routes.
(** A Supabase client that knows one session token, of user 7. *)
Definition sb_demo : supabase_client :=
  mk_supabase (fun token =>
    if list_eq_dec Z.eq_dec token (js "tok7")
    then inl (mk_get_user_response (Some (mk_user 7)) None)
    else inl (mk_get_user_response None (Some (mk_error None "invalid JWT")))).

Definition db_ok : db_api :=
  mk_db (fun _ t _ => inl (JObj [("title", t)])) (fun _ _ => inl (JArr []))
        (fun _ _ _ _ => inl (JObj [("success", JBool true)]))
        (fun _ _ _ => inl (JObj [("success", JBool true)]))
        (fun _ _ _ => inl (JArr [])) (fun _ _ r c _ => inl (JObj [("role", r); ("content", c)])).

Definition req_demo : route_request :=
  mk_route_request (Some (js "Bearer tok7")) None (js "1") [("title", JStr "Algebra")].

End Fixtures.

(** * Proofs *)

Module SanitizeFacts.
Import Sanitize.

Lemma after_gt_in : forall s s', after_gt s = Some s' ->
  (List.length s' <= List.length s)%nat /\ (forall x, In x s' -> In x s).
Proof.
  induction s as [| c rest IH]; simpl; intros s' H; [discriminate |].
  destruct (c =? 62); [injection H as <-; split; [lia | auto] |].
  destruct (IH s' H) as [Hl Hin]; split; [lia | auto].
Qed.

Lemma after_gt_none : forall s, after_gt s = None -> existsb (Z.eqb 62) s = false.
Proof.
  induction s as [| c rest IH]; cbn [after_gt existsb]; intros H; [reflexivity |].
  destruct (c =? 62) eqn:E; [discriminate |].
  rewrite Z.eqb_sym, E; cbn [orb]; auto.
Qed.

Lemma strip_tags_go_in : forall f s x, In x (strip_tags_go f s) -> In x s.
Proof.
  induction f as [| f IH]; simpl; intros s x H; [exact H |].
  destruct s as [| c rest]; [exact H |].
  destruct (c =? 60).
  - destruct (after_gt rest) as [s' |] eqn:E.
    + right; apply (proj2 (after_gt_in _ _ E)); eauto.
    + destruct H as [H | H]; [left; exact H | right; eauto].
  - destruct H as [H | H]; [left; exact H | right; eauto].
Qed.

Lemma existsb_false_incl : forall (p : Z -> bool) (l l' : list Z),
  (forall x, In x l -> In x l') -> existsb p l' = false -> existsb p l = false.
Proof.
  intros p l l' Hincl H.
  destruct (existsb p l) eqn:E; [| reflexivity].
  apply existsb_exists in E as [x [Hx Hpx]].
  assert (existsb p l' = true) by (apply existsb_exists; eauto).
  congruence.
Qed.

(** The single global pass of [/<[^>]*>/g] leaves no ['<'] that a ['>'] follows. *)
Lemma strip_tags_go_no_tag : forall f s, (List.length s <= f)%nat ->
  has_tag (strip_tags_go f s) = false.
Proof.
  induction f as [| f IH]; intros s Hlen.
  - destruct s; [reflexivity | simpl in Hlen; lia].
  - destruct s as [| c rest]; [reflexivity |].
    simpl in Hlen |- *.
    destruct (c =? 60) eqn:Hc.
    + destruct (after_gt rest) as [s' |] eqn:E.
      * apply IH. pose proof (proj1 (after_gt_in _ _ E)); lia.
      * simpl. rewrite Hc, IH by lia. simpl.
        rewrite (existsb_false_incl _ _ rest (strip_tags_go_in f rest)
                   (after_gt_none rest E)).
        reflexivity.
    + simpl. rewrite Hc, IH by lia. reflexivity.
Qed.

Lemma has_tag_app_l : forall a b, has_tag (a ++ b) = false -> has_tag a = false.
Proof.
  induction a as [| c a IH]; simpl; intros b H; [reflexivity |].
  apply orb_false_elim in H as [H1 H2].
  rewrite (IH b H2), orb_false_r.
  destruct (c =? 60); [simpl in * | reflexivity].
  rewrite existsb_app in H1. apply orb_false_elim in H1. tauto.
Qed.

Lemma has_tag_app_r : forall a b, has_tag (a ++ b) = false -> has_tag b = false.
Proof.
  induction a as [| c a IH]; simpl; intros b H; [exact H |].
  apply orb_false_elim in H as [_ H]. auto.
Qed.

Lemma trim_start_suffix : forall s, exists p, s = p ++ trim_start s.
Proof.
  induction s as [| c rest [p Hp]]; simpl; [exists []; reflexivity |].
  destruct (is_js_whitespace c); [exists (c :: p); simpl; congruence | exists []; reflexivity].
Qed.

Lemma trim_infix : forall s, exists p q, s = p ++ trim s ++ q.
Proof.
  intros s. unfold trim.
  destruct (trim_start_suffix s) as [p Hp].
  destruct (trim_start_suffix (rev (trim_start s))) as [q Hq].
  exists p, (rev q).
  rewrite Hp at 1. f_equal.
  rewrite <- (rev_involutive (trim_start s)) at 1.
  rewrite Hq at 1. rewrite rev_app_distr. reflexivity.
Qed.

(** C9: after sanitization the message has no substring that starts with
    ['<'] and ends with ['>'], whatever the script pass left and whatever
    text the removal of a tag brought together. *)
Theorem C9_sanitize_no_tag : forall message : jsstring,
  has_tag (sanitize message) = false.
Proof.
  intros message. unfold sanitize.
  set (t := strip_tags (strip_scripts message)).
  assert (Ht : has_tag t = false) by (apply strip_tags_go_no_tag; lia).
  destruct (trim_infix t) as [p [q Heq]].
  rewrite Heq in Ht.
  apply has_tag_app_r in Ht. apply has_tag_app_l in Ht. exact Ht.
Qed.

Example sanitize_nested :
  sanitize (js " <<b>i>x<script>alert(1)</script>y <a") = js "i>xy <a".
Proof. vm_compute. reflexivity. Qed.

Lemma to_lower_bracket : forall u a, (a = 60 \/ a = 62) -> (to_lower u =? a) = true -> u = a.
Proof.
  intros u a Ha H. apply Z.eqb_eq in H. unfold to_lower in H.
  destruct ((65 <=? u) && (u <=? 90)) eqn:E; [| exact H].
  apply andb_true_iff in E as [E1 E2]. apply Z.leb_le in E1. lia.
Qed.

(** A case-insensitive prefix match fixes the ['<'] and ['>'] of the pattern. *)
Lemma prefix_ci_bracket : forall p s i x, prefix_ci p s = true ->
  nth_error p i = Some x -> (x = 60 \/ x = 62) -> nth_error s i = Some x.
Proof.
  induction p as [| a p IH]; intros s i x H Hi Hx; [destruct i; discriminate |].
  destruct s as [| b s]; [discriminate |].
  cbn [prefix_ci] in H. apply andb_true_iff in H as [H1 H2].
  destruct i as [| i]; cbn [nth_error] in Hi |- *.
  - injection Hi as <-. f_equal. exact (to_lower_bracket b a Hx H1).
  - exact (IH s i x H2 Hi Hx).
Qed.

Lemma nth_error_existsb : forall (s : jsstring) i x, nth_error s i = Some x ->
  existsb (Z.eqb x) s = true.
Proof.
  intros s i x H. apply existsb_exists. exists x. split; [| apply Z.eqb_refl].
  exact (nth_error_In s i H).
Qed.

Lemma after_script_close_gt : forall t t', after_script_close t = Some t' ->
  existsb (Z.eqb 62) t = true.
Proof.
  induction t as [| c rest IH]; cbn [after_script_close]; intros t' H; [discriminate |].
  destruct (prefix_ci script_close (c :: rest)) eqn:E.
  - apply (nth_error_existsb _ 8). apply (prefix_ci_bracket script_close); auto.
  - cbn [existsb]. rewrite (IH t' H). apply orb_true_r.
Qed.

Lemma existsb_skipn : forall (p : Z -> bool) n s, existsb p (skipn n s) = true ->
  existsb p s = true.
Proof.
  intros p n s H. apply existsb_exists in H as [x [Hx Hp]].
  apply existsb_exists. exists x. split; [| exact Hp].
  rewrite <- (firstn_skipn n s). apply in_or_app. right. exact Hx.
Qed.

(** A text with no tag has no [<script ...</script>] either. *)
Lemma strip_scripts_go_id : forall f s, has_tag s = false -> strip_scripts_go f s = s.
Proof.
  induction f as [| f IH]; intros s H; [reflexivity |].
  destruct s as [| c rest]; [reflexivity |].
  cbn [strip_scripts_go].
  cbn [has_tag] in H. apply orb_false_elim in H as [H1 H2].
  destruct (script_opens (c :: rest)) eqn:Ho.
  - destruct (after_script_close (skipn 7 (c :: rest))) as [s' |] eqn:E.
    + exfalso. unfold script_opens in Ho. apply andb_true_iff in Ho as [Ho _].
      assert (Hc : nth_error (c :: rest) 0 = Some 60)
        by (apply (prefix_ci_bracket script_open); auto).
      injection Hc as ->.
      pose proof (after_script_close_gt _ _ E) as Hg.
      change (skipn 7 (60 :: rest)) with (skipn 6 rest) in Hg. apply existsb_skipn in Hg.
      rewrite Hg in H1. discriminate.
    + f_equal. apply IH. exact H2.
  - f_equal. apply IH. exact H2.
Qed.

Lemma after_gt_some : forall s s', after_gt s = Some s' -> existsb (Z.eqb 62) s = true.
Proof.
  induction s as [| c rest IH]; cbn [after_gt existsb]; intros s' H; [discriminate |].
  destruct (c =? 62) eqn:E; [rewrite Z.eqb_sym, E; reflexivity |].
  rewrite (IH s' H). apply orb_true_r.
Qed.

(** A text with no tag is left as it is by the tag pass. *)
Lemma strip_tags_go_id : forall f s, has_tag s = false -> strip_tags_go f s = s.
Proof.
  induction f as [| f IH]; intros s H; [reflexivity |].
  destruct s as [| c rest]; [reflexivity |].
  cbn [strip_tags_go]. cbn [has_tag] in H. apply orb_false_elim in H as [H1 H2].
  destruct (c =? 60) eqn:Hc.
  - destruct (after_gt rest) as [s' |] eqn:E.
    + apply after_gt_some in E. rewrite E in H1. discriminate.
    + f_equal. apply IH. exact H2.
  - f_equal. apply IH. exact H2.
Qed.

Lemma trim_start_idem : forall s, trim_start (trim_start s) = trim_start s.
Proof.
  induction s as [| c rest IH]; cbn [trim_start]; [reflexivity |].
  destruct (is_js_whitespace c) eqn:E; [exact IH | cbn [trim_start]; rewrite E; reflexivity].
Qed.

Lemma trim_start_head : forall s c rest, trim_start s = c :: rest -> is_js_whitespace c = false.
Proof.
  induction s as [| d s IH]; cbn [trim_start]; intros c rest H; [discriminate |].
  destruct (is_js_whitespace d) eqn:E; [exact (IH c rest H) | injection H as <- _; exact E].
Qed.

Lemma trim_start_id : forall s, match s with [] => True | c :: _ => is_js_whitespace c = false end ->
  trim_start s = s.
Proof. intros [| c rest] H; cbn [trim_start]; [reflexivity | rewrite H; reflexivity]. Qed.

Lemma trim_idem : forall s, trim (trim s) = trim s.
Proof.
  intros s. unfold trim at 2 3.
  set (a := trim_start s). set (b := trim_start (rev a)).
  assert (Hb : trim_start (rev b) = rev b).
  { destruct (trim_start_suffix (rev a)) as [p Hp]. fold b in Hp.
    assert (Ha : a = rev b ++ rev p)
      by (rewrite <- (rev_involutive a), Hp, rev_app_distr; reflexivity).
    apply trim_start_id. destruct (rev b) as [| c r] eqn:Erb; [exact I |].
    apply (trim_start_head s c (r ++ rev p)). fold a. rewrite Ha. reflexivity. }
  unfold trim. rewrite Hb, rev_involutive. unfold b at 1. rewrite trim_start_idem.
  reflexivity.
Qed.

Lemma trim_no_tag : forall t, has_tag t = false -> has_tag (trim t) = false.
Proof.
  intros t Ht. destruct (trim_infix t) as [p [q Heq]].
  rewrite Heq in Ht. apply has_tag_app_r in Ht. apply has_tag_app_l in Ht. exact Ht.
Qed.

(** X1: sanitization is idempotent: sanitizing an already sanitized message
    changes nothing. *)
Theorem sanitize_idempotent : forall message : jsstring,
  sanitize (sanitize message) = sanitize message.
Proof.
  intros message.
  assert (Ht : has_tag (sanitize message) = false).
  { apply trim_no_tag. apply strip_tags_go_no_tag. lia. }
  unfold sanitize at 1. unfold strip_scripts, strip_tags.
  rewrite (strip_scripts_go_id _ _ Ht), (strip_tags_go_id _ _ Ht).
  unfold sanitize. apply trim_idem.
Qed.

Lemma subseq_refl : forall s, subseq s s.
Proof. induction s; constructor; assumption. Qed.

Lemma subseq_nil_l : forall t, subseq [] t.
Proof. induction t; constructor; assumption. Qed.

Lemma subseq_app_l : forall s t p, subseq s t -> subseq s (p ++ t).
Proof. intros s t p H. induction p; simpl; [exact H | constructor; exact IHp]. Qed.

Lemma subseq_app : forall s1 t1 s2 t2, subseq s1 t1 -> subseq s2 t2 ->
  subseq (s1 ++ s2) (t1 ++ t2).
Proof.
  intros s1 t1 s2 t2 H1 H2. induction H1; simpl; [exact H2 | constructor; assumption
  | constructor; assumption].
Qed.

Lemma subseq_trans : forall a b c, subseq a b -> subseq b c -> subseq a c.
Proof.
  intros a b c Hab Hbc. revert a Hab. induction Hbc; intros a Hab.
  - exact Hab.
  - inversion Hab; subst; constructor; auto.
  - constructor. auto.
Qed.

Lemma after_script_close_suffix : forall t t', after_script_close t = Some t' ->
  exists p, t = p ++ t'.
Proof.
  induction t as [| c rest IH]; cbn [after_script_close]; intros t' H; [discriminate |].
  destruct (prefix_ci script_close (c :: rest)).
  - injection H as <-. exists (firstn 9 (c :: rest)). symmetry. apply firstn_skipn.
  - destruct (IH t' H) as [p ->]. exists (c :: p). reflexivity.
Qed.

Lemma after_gt_suffix : forall t t', after_gt t = Some t' -> exists p, t = p ++ t'.
Proof.
  induction t as [| c rest IH]; cbn [after_gt]; intros t' H; [discriminate |].
  destruct (c =? 62).
  - injection H as <-. exists [c]. reflexivity.
  - destruct (IH t' H) as [p ->]. exists (c :: p). reflexivity.
Qed.

Lemma strip_scripts_go_subseq : forall f s, subseq (strip_scripts_go f s) s.
Proof.
  induction f as [| f IH]; intros s; [apply subseq_refl |].
  destruct s as [| c rest]; [constructor |]. cbn [strip_scripts_go].
  destruct (script_opens (c :: rest)); [| constructor; apply IH].
  destruct (after_script_close (skipn 7 (c :: rest))) as [s' |] eqn:E; [| constructor; apply IH].
  destruct (after_script_close_suffix _ _ E) as [p Hp].
  rewrite <- (firstn_skipn 7 (c :: rest)), Hp, app_assoc.
  apply subseq_app_l. apply IH.
Qed.

Lemma strip_tags_go_subseq : forall f s, subseq (strip_tags_go f s) s.
Proof.
  induction f as [| f IH]; intros s; [apply subseq_refl |].
  destruct s as [| c rest]; [constructor |]. cbn [strip_tags_go].
  destruct (c =? 60); [| constructor; apply IH].
  destruct (after_gt rest) as [s' |] eqn:E; [| constructor; apply IH].
  destruct (after_gt_suffix _ _ E) as [p ->].
  apply subseq_drop. apply subseq_app_l. apply IH.
Qed.

(** X2: sanitization only deletes code units: its result is a subsequence of
    the message; nothing is inserted, changed or reordered. *)
Theorem sanitize_subseq : forall message : jsstring, subseq (sanitize message) message.
Proof.
  intros message. unfold sanitize.
  set (T := strip_tags (strip_scripts message)).
  assert (H1 : subseq (trim T) T).
  { destruct (trim_infix T) as [p [q Heq]]. remember (trim T) as u.
    rewrite Heq. apply subseq_app_l. rewrite <- (app_nil_r u) at 1.
    apply subseq_app; [apply subseq_refl | apply subseq_nil_l]. }
  eapply subseq_trans; [exact H1 |]. unfold T, strip_tags, strip_scripts.
  eapply subseq_trans; [apply strip_tags_go_subseq | apply strip_scripts_go_subseq].
Qed.

Lemma strip_scripts_go_no_lt : forall f s, ~ In 60 s -> strip_scripts_go f s = s.
Proof.
  induction f as [| f IH]; intros s H; [reflexivity |].
  destruct s as [| c rest]; [reflexivity |]. cbn [strip_scripts_go].
  destruct (script_opens (c :: rest)) eqn:Ho.
  - exfalso. unfold script_opens in Ho. apply andb_true_iff in Ho as [Ho _].
    apply H. apply (nth_error_In _ 0). apply (prefix_ci_bracket script_open); auto.
  - f_equal. apply IH. intros Hin. apply H. right. exact Hin.
Qed.

Lemma strip_tags_go_no_lt : forall f s, ~ In 60 s -> strip_tags_go f s = s.
Proof.
  induction f as [| f IH]; intros s H; [reflexivity |].
  destruct s as [| c rest]; [reflexivity |]. cbn [strip_tags_go].
  destruct (c =? 60) eqn:Hc.
  - exfalso. apply Z.eqb_eq in Hc. subst. apply H. left. reflexivity.
  - f_equal. apply IH. intros Hin. apply H. right. exact Hin.
Qed.

Lemma sanitize_no_lt : forall m, ~ In 60 m -> sanitize m = trim m.
Proof.
  intros m H. unfold sanitize, strip_scripts, strip_tags.
  rewrite (strip_scripts_go_no_lt _ _ H), (strip_tags_go_no_lt _ _ H). reflexivity.
Qed.

(** X3: a message with no ['<'] is only trimmed by sanitization. *)
Theorem sanitize_plain_text : forall message : jsstring, ~ In 60 message ->
  sanitize message = trim message.
Proof. exact sanitize_no_lt. Qed.

Lemma sanitize_plain_text_witness :
  ~ In 60 (js "  a > b  ") /\ sanitize (js "  a > b  ") = trim (js "  a > b  ").
Proof.
  assert (H : ~ In 60 (js "  a > b  ")) by (vm_compute; intuition discriminate).
  split; [exact H | apply sanitize_plain_text; exact H].
Defined.

End SanitizeFacts.

Module HandlerFacts.
Import Sanitize Handlers Fixtures.



Lemma main_completion_calls : forall openai sys sm mt temp calls,
  exists creq, snd (main_completion openai sys sm mt temp calls) = calls ++ [CallCompletion creq]
    /\ creq = mk_completion_request "gpt-4o-mini" [("system", sys); ("user", sm)] mt temp.
Proof.
  intros. unfold main_completion. eexists; split; [| reflexivity].
  destruct (chat_completions_create openai _) as [c |]; [destruct (choices c) |]; reflexivity.
Qed.

Lemma public_completion_calls : forall openai sys m mt temp calls,
  exists creq, snd (public_completion openai sys m mt temp calls) = calls ++ [CallCompletion creq]
    /\ creq = mk_completion_request "gpt-4o-mini" [("system", sys); ("user", m)] mt temp.
Proof.
  intros. unfold public_completion. eexists; split; [| reflexivity].
  destruct (chat_completions_create openai _) as [c |]; [destruct (choices c) |]; reflexivity.
Qed.

(** The checks of STEP 2 of handleMainGpt, passed. *)
Definition main_valid (b : request_body) (m : jsstring) : Prop :=
  message b = Some m /\ m <> [] /\ (List.length m <= 4000)%nat
  /\ (q_lt (mt_of b) 1 || q_lt 1000 (mt_of b)) = false
  /\ (q_lt (temp_of b) 0 || q_lt 1 (temp_of b)) = false.

(** Once validation is passed, handleMainGpt moderates the sanitized message. *)
Lemma handleMainGpt_unfold_valid : forall body openai sys m, main_valid body m ->
  handleMainGpt body openai sys =
  (let mreq := mk_moderation_request "omni-moderation-latest" (sanitize m) in
   let continue := main_completion openai sys (sanitize m) (mt_of body) (temp_of body)
                     [CallModeration mreq] in
   match moderations_create openai mreq with
   | inr _ => continue
   | inl moderation =>
       match results moderation with
       | [] => continue
       | r :: _ =>
           if flagged r then
             (mk_response 400 (JObj [("error", JStr usage_policy_message);
                                     ("flagged", JBool true)]), [CallModeration mreq])
           else continue
       end
   end).
Proof.
  intros body openai sys m (Hm & Hne & Hlen & Hmt & Ht).
  unfold handleMainGpt. fold (mt_of body) (temp_of body).
  rewrite Hm. destruct m as [| c m']; [congruence |].
  replace (4000 <? List.length (c :: m'))%nat with false
    by (symmetry; apply Nat.ltb_ge; exact Hlen).
  rewrite Hmt, Ht. reflexivity.
Qed.

(** A request that fails validation is answered without any provider call. *)
Lemma handleMainGpt_calls_valid : forall body openai sys call,
  In call (snd (handleMainGpt body openai sys)) -> exists m, main_valid body m.
Proof.
  intros body openai sys call Hin.
  unfold handleMainGpt in Hin. fold (mt_of body) (temp_of body) in Hin.
  destruct (message body) as [[| c m'] |] eqn:Hm; try contradiction.
  destruct (4000 <? List.length (c :: m'))%nat eqn:Hlen; [contradiction |].
  destruct (q_lt (mt_of body) 1 || q_lt 1000 (mt_of body)) eqn:Hmt; [contradiction |].
  destruct (q_lt (temp_of body) 0 || q_lt 1 (temp_of body)) eqn:Ht; [contradiction |].
  exists (c :: m'). repeat split; auto; [discriminate | apply Nat.ltb_ge; exact Hlen].
Qed.

Definition public_valid (b : request_body) (m : jsstring) : Prop :=
  message b = Some m /\ m <> [] /\ trim m <> []
  /\ (q_lt (mt_of b) 1 || q_lt 1000 (mt_of b)) = false.

Lemma handlePublicGpt_unfold_valid : forall body openai sys m, public_valid body m ->
  handlePublicGpt body openai sys =
  (let mreq := mk_moderation_request "text-moderation-latest" m in
   match moderations_create openai mreq with
   | inr error => (public_error_response error, [CallModeration mreq])
   | inl moderationResult =>
       match results moderationResult with
       | [] => (public_error_response (type_error "categories"), [CallModeration mreq])
       | r0 :: _ =>
           if (0 <? List.length (flagged_keys (categories r0)))%nat then
             (mk_response 400
                (JObj [("error", JStr ("Content violates our policy: "
                                        ++ join ", " (flagged_keys (categories r0)))%string);
                       ("flagged", JBool true)]), [CallModeration mreq])
           else public_completion openai sys m (mt_of body) (temp_of body) [CallModeration mreq]
       end
   end).
Proof.
  intros body openai sys m (Hm & Hne & Htr & Hmt).
  unfold handlePublicGpt. fold (mt_of body) (temp_of body).
  rewrite Hm. destruct m as [| c m']; [congruence |].
  destruct (List.length (trim (c :: m')) =? 0)%nat eqn:E.
  { apply Nat.eqb_eq, length_zero_iff_nil in E. congruence. }
  rewrite Hmt. reflexivity.
Qed.

Lemma handlePublicGpt_calls_valid : forall body openai sys call,
  In call (snd (handlePublicGpt body openai sys)) -> exists m, public_valid body m.
Proof.
  intros body openai sys call Hin.
  unfold handlePublicGpt in Hin. fold (mt_of body) (temp_of body) in Hin.
  destruct (message body) as [[| c m'] |] eqn:Hm; try contradiction.
  destruct (List.length (trim (c :: m')) =? 0)%nat eqn:E; [contradiction |].
  destruct (q_lt (mt_of body) 1 || q_lt 1000 (mt_of body)) eqn:Hmt; [contradiction |].
  exists (c :: m'). repeat split; auto; [discriminate |].
  intros Htr. rewrite Htr in E. discriminate.
Qed.

(** After validation, the only moderation request handleMainGpt makes. *)
Lemma main_moderation_request : forall body openai sys m mreq,
  main_valid body m -> In (CallModeration mreq) (snd (handleMainGpt body openai sys)) ->
  mreq = mk_moderation_request "omni-moderation-latest" (sanitize m).
Proof.
  intros body openai sys m mreq Hv Hin.
  rewrite (handleMainGpt_unfold_valid _ _ _ _ Hv) in Hin. cbv zeta in Hin.
  destruct (main_completion_calls openai sys (sanitize m) (mt_of body) (temp_of body)
              [CallModeration (mk_moderation_request "omni-moderation-latest" (sanitize m))])
    as [creq [Hc _]].
  destruct (moderations_create openai _) as [mo |];
    [destruct (results mo) as [| r0 rest]; [| destruct (flagged r0)] |];
    try rewrite Hc in Hin; simpl in Hin; intuition congruence.
Qed.

Lemma public_moderation_request : forall body openai sys m mreq,
  public_valid body m -> In (CallModeration mreq) (snd (handlePublicGpt body openai sys)) ->
  mreq = mk_moderation_request "text-moderation-latest" m.
Proof.
  intros body openai sys m mreq Hv Hin.
  rewrite (handlePublicGpt_unfold_valid _ _ _ _ Hv) in Hin. cbv zeta in Hin.
  destruct (public_completion_calls openai sys m (mt_of body) (temp_of body)
              [CallModeration (mk_moderation_request "text-moderation-latest" m)])
    as [creq [Hc _]].
  destruct (moderations_create openai _) as [mo |];
    [destruct (results mo) as [| r0 rest];
       [| destruct (0 <? List.length (flagged_keys (categories r0)))%nat] |];
    try rewrite Hc in Hin; simpl in Hin; intuition congruence.
Qed.

(** The main handler fails open: when the moderation call throws, the
    sanitized message still goes to the completion endpoint. *)
Lemma main_moderation_error_fails_open : forall body openai sys m e,
  main_valid body m ->
  moderations_create openai (mk_moderation_request "omni-moderation-latest" (sanitize m)) = inr e ->
  handleMainGpt body openai sys =
  main_completion openai sys (sanitize m) (mt_of body) (temp_of body)
    [CallModeration (mk_moderation_request "omni-moderation-latest" (sanitize m))].
Proof.
  intros body openai sys m e Hv He.
  rewrite (handleMainGpt_unfold_valid _ _ _ _ Hv). cbv zeta. rewrite He. reflexivity.
Qed.

(** The public handler does not: a throwing moderation call ends the request
    in its outer [catch], before any completion call. *)
Lemma public_moderation_error_fails_closed : forall body openai sys m e,
  public_valid body m ->
  moderations_create openai (mk_moderation_request "text-moderation-latest" m) = inr e ->
  handlePublicGpt body openai sys =
  (public_error_response e, [CallModeration (mk_moderation_request "text-moderation-latest" m)]).
Proof.
  intros body openai sys m e Hv He.
  rewrite (handlePublicGpt_unfold_valid _ _ _ _ Hv). cbv zeta. rewrite He. reflexivity.
Qed.

(** C1 (amended): a flagged moderation result ends the request with a 400
    and no completion call.  handleMainGpt tests [flagged] and answers with a
    fixed policy message and [flagged: true]; handlePublicGpt tests that some
    category is set and lists the set categories in its error message. *)
Theorem C1_flagged_message_blocked :
  (forall body openai sys mreq r0 rest,
     In (CallModeration mreq) (snd (handleMainGpt body openai sys)) ->
     moderations_create openai mreq = inl (mk_moderation_response (r0 :: rest)) ->
     flagged r0 = true ->
     handleMainGpt body openai sys =
     (mk_response 400 (JObj [("error", JStr usage_policy_message); ("flagged", JBool true)]),
      [CallModeration mreq]))
  /\
  (forall body openai sys mreq r0 rest,
     In (CallModeration mreq) (snd (handlePublicGpt body openai sys)) ->
     moderations_create openai mreq = inl (mk_moderation_response (r0 :: rest)) ->
     flagged_keys (categories r0) <> [] ->
     handlePublicGpt body openai sys =
     (mk_response 400
        (JObj [("error", JStr ("Content violates our policy: "
                                ++ join ", " (flagged_keys (categories r0)))%string);
               ("flagged", JBool true)]),
      [CallModeration mreq])).
Proof.
  split.
  - intros body openai sys mreq r0 rest Hin Hmod Hfl.
    destruct (handleMainGpt_calls_valid _ _ _ _ Hin) as [m Hv].
    pose proof (main_moderation_request _ _ _ _ _ Hv Hin) as ->.
    rewrite (handleMainGpt_unfold_valid _ _ _ _ Hv). cbv zeta.
    rewrite Hmod. simpl. rewrite Hfl. reflexivity.
  - intros body openai sys mreq r0 rest Hin Hmod Hfl.
    destruct (handlePublicGpt_calls_valid _ _ _ _ Hin) as [m Hv].
    pose proof (public_moderation_request _ _ _ _ _ Hv Hin) as ->.
    rewrite (handlePublicGpt_unfold_valid _ _ _ _ Hv). cbv zeta.
    rewrite Hmod. simpl.
    destruct (flagged_keys (categories r0)) as [| k ks]; [congruence | reflexivity].
Qed.

Lemma C1_flagged_message_blocked_witness :
  handleMainGpt body_hi openai_flagged sys0 =
  (mk_response 400 (JObj [("error", JStr usage_policy_message); ("flagged", JBool true)]),
   [CallModeration (mk_moderation_request "omni-moderation-latest" (js "hi"))])
  /\
  handlePublicGpt body_hi openai_flagged sys0 =
  (mk_response 400 (JObj [("error", JStr ("Content violates our policy: "
                                           ++ join ", " ["harassment"])%string);
                          ("flagged", JBool true)]),
   [CallModeration (mk_moderation_request "text-moderation-latest" (js "hi"))]).
Proof.
  split.
  - apply (proj1 C1_flagged_message_blocked body_hi openai_flagged sys0
             (mk_moderation_request "omni-moderation-latest" (js "hi"))
             (mk_moderation_result true [("harassment", true); ("violence", false)]) []);
      vm_compute; [left; reflexivity | reflexivity | reflexivity].
  - apply (proj2 C1_flagged_message_blocked body_hi openai_flagged sys0
             (mk_moderation_request "text-moderation-latest" (js "hi"))
             (mk_moderation_result true [("harassment", true); ("violence", false)]) []);
      vm_compute; [left; reflexivity | reflexivity | discriminate].
Defined.

(** C1 as stated fails: for a flagged message handleMainGpt's 400 body does
    not carry the flagged category. *)
Lemma C1_main_body_omits_categories :
  status (fst (handleMainGpt body_hi openai_flagged sys0)) = 400
  /\ flagged_keys [("harassment", true); ("violence", false)] = ["harassment"]
  /\ json_mentions "harassment" (body (fst (handleMainGpt body_hi openai_flagged sys0))) = false.
Proof. vm_compute. repeat split. Qed.

(** C2: the claim holds for handleMainGpt
    ([main_moderation_error_fails_open]) but not for handlePublicGpt: there a
    failing moderation call makes the request fail with a 500 and the
    message never reaches the completion endpoint. *)
Theorem C2_public_moderation_error_fails_request :
  handlePublicGpt body_hi openai_moderation_down sys0 =
  (mk_response 500 (error_body "An error occurred while processing your request"),
   [CallModeration (mk_moderation_request "text-moderation-latest" (js "hi"))])
  /\ calls_completion (snd (handlePublicGpt body_hi openai_moderation_down sys0)) = false
  /\ calls_completion (snd (handleMainGpt body_hi openai_moderation_down sys0)) = true.
Proof. vm_compute. repeat split. Qed.



(** C5 (amended): handleMainGpt maps a thrown provider error to 402
    (insufficient_quota), 401 (invalid_api_key) or 500; handlePublicGpt to
    429 (rate_limit_exceeded) or 500, invalid keys and exhausted quota
    included. *)
Theorem C5_provider_error_status :
  (forall body openai sys creq e,
     In (CallCompletion creq) (snd (handleMainGpt body openai sys)) ->
     chat_completions_create openai creq = inr e ->
     status (fst (handleMainGpt body openai sys)) = main_status_of_error e)
  /\
  (forall body openai sys creq e,
     In (CallCompletion creq) (snd (handlePublicGpt body openai sys)) ->
     chat_completions_create openai creq = inr e ->
     status (fst (handlePublicGpt body openai sys)) = public_status_of_error e).
Proof.
  split.
  - intros body openai sys creq e Hin He.
    destruct (handleMainGpt_calls_valid _ _ _ _ Hin) as [m Hv].
    rewrite (handleMainGpt_unfold_valid _ _ _ _ Hv) in Hin |- *. cbv zeta in Hin |- *.
    destruct (main_completion_calls openai sys (sanitize m) (mt_of body) (temp_of body)
                [CallModeration (mk_moderation_request "omni-moderation-latest" (sanitize m))])
      as [creq0 [Hc Hcreq0]].
    assert (Hcr : forall x, x = main_completion openai sys (sanitize m) (mt_of body) (temp_of body)
                    [CallModeration (mk_moderation_request "omni-moderation-latest" (sanitize m))] ->
                  In (CallCompletion creq) (snd x) ->
                  status (fst x) = main_status_of_error e).
    { intros x -> Hx. rewrite Hc in Hx. simpl in Hx.
      destruct Hx as [Hx | [Hx | []]]; [discriminate | injection Hx as <-].
      unfold main_completion. rewrite <- Hcreq0, He. unfold main_status_of_error, main_error_response.
      destruct (code_is e "insufficient_quota"); [reflexivity |].
      destruct (code_is e "invalid_api_key"); reflexivity. }
    destruct (moderations_create openai _) as [mo |];
      [destruct (results mo) as [| r0 rest]; [| destruct (flagged r0)] |];
      try (apply Hcr; [reflexivity | exact Hin]).
    simpl in Hin. destruct Hin as [Hin | []]. discriminate.
  - intros body openai sys creq e Hin He.
    destruct (handlePublicGpt_calls_valid _ _ _ _ Hin) as [m Hv].
    rewrite (handlePublicGpt_unfold_valid _ _ _ _ Hv) in Hin |- *. cbv zeta in Hin |- *.
    destruct (public_completion_calls openai sys m (mt_of body) (temp_of body)
                [CallModeration (mk_moderation_request "text-moderation-latest" m)])
      as [creq0 [Hc Hcreq0]].
    destruct (moderations_create openai _) as [mo |];
      [destruct (results mo) as [| r0 rest];
         [| destruct (0 <? List.length (flagged_keys (categories r0)))%nat] |];
      try (simpl in Hin; destruct Hin as [Hin | []]; discriminate).
    rewrite Hc in Hin. simpl in Hin.
    destruct Hin as [Hin | [Hin | []]]; [discriminate | injection Hin as <-].
    unfold public_completion. rewrite <- Hcreq0, He.
    unfold public_status_of_error, public_error_response.
    destruct (code_is e "invalid_api_key") eqn:E1.
    + destruct e as [[c |] msg]; simpl in E1 |- *; [| discriminate].
      apply String.eqb_eq in E1. subst c. reflexivity.
    + destruct (code_is e "insufficient_quota") eqn:E2.
      * destruct e as [[c |] msg]; simpl in E2 |- *; [| discriminate].
        apply String.eqb_eq in E2. subst c. reflexivity.
      * destruct (code_is e "rate_limit_exceeded"); reflexivity.
Qed.

Lemma C5_provider_error_status_witness :
  status (fst (handleMainGpt body_hi openai_quota sys0)) = main_status_of_error quota_error
  /\ status (fst (handlePublicGpt body_hi openai_quota sys0)) = public_status_of_error quota_error.
Proof.
  split.
  - apply (proj1 C5_provider_error_status body_hi openai_quota sys0
             (mk_completion_request "gpt-4o-mini" [("system", sys0); ("user", js "hi")]
                default_max_tokens default_temperature) quota_error);
      vm_compute; [right; left; reflexivity | reflexivity].
  - apply (proj2 C5_provider_error_status body_hi openai_quota sys0
             (mk_completion_request "gpt-4o-mini" [("system", sys0); ("user", js "hi")]
                default_max_tokens default_temperature) quota_error);
      vm_compute; [right; left; reflexivity | reflexivity].
Defined.

(** C5 as stated fails: an insufficient_quota error of the completion call
    is answered 500, not 402, by handlePublicGpt. *)
Lemma C5_public_quota_error_is_500 :
  code quota_error = Some "insufficient_quota"
  /\ status (fst (handlePublicGpt body_hi openai_quota sys0)) = 500.
Proof. vm_compute. split; reflexivity. Qed.

(** ** Further properties of the handlers *)

Lemma main_error_response_status : forall e, status (main_error_response e) <> 200.
Proof.
  intros e. unfold main_error_response.
  destruct (code_is e "insufficient_quota"); [discriminate |].
  destruct (code_is e "invalid_api_key"); discriminate.
Qed.

Lemma public_error_response_status : forall e, status (public_error_response e) <> 200.
Proof.
  intros e. unfold public_error_response.
  destruct (code_is e "invalid_api_key"); [discriminate |].
  destruct (code_is e "insufficient_quota"); [discriminate |].
  destruct (code_is e "rate_limit_exceeded"); discriminate.
Qed.

Lemma handleMainGpt_calls_shape : forall body openai sys m, main_valid body m ->
  let mreq := mk_moderation_request "omni-moderation-latest" (sanitize m) in
  let creq := mk_completion_request "gpt-4o-mini" [("system", sys); ("user", sanitize m)]
                (mt_of body) (temp_of body) in
  snd (handleMainGpt body openai sys) = [CallModeration mreq]
  \/ snd (handleMainGpt body openai sys) = [CallModeration mreq; CallCompletion creq].
Proof.
  intros body openai sys m Hv mreq creq.
  rewrite (handleMainGpt_unfold_valid _ _ _ _ Hv). cbv zeta. fold mreq.
  destruct (main_completion_calls openai sys (sanitize m) (mt_of body) (temp_of body)
              [CallModeration mreq]) as [cr [Hc Hcr]].
  fold creq in Hcr. subst cr.
  destruct (moderations_create openai mreq) as [mo |];
    [destruct (results mo) as [| r0 rest]; [| destruct (flagged r0)] |];
    solve [left; reflexivity | right; exact Hc].
Qed.

(** X4: handleMainGpt makes no provider call, or exactly the moderation call
    on the sanitized message, or that call followed by one completion call
    whose messages are the system instructions and the sanitized message, with
    the request's (or the default) maxTokens and temperature. *)
Theorem main_provider_calls : forall body openai sys,
  snd (handleMainGpt body openai sys) = []
  \/ exists m, message body = Some m /\
     (snd (handleMainGpt body openai sys)
        = [CallModeration (mk_moderation_request "omni-moderation-latest" (sanitize m))]
      \/ snd (handleMainGpt body openai sys)
        = [CallModeration (mk_moderation_request "omni-moderation-latest" (sanitize m));
           CallCompletion (mk_completion_request "gpt-4o-mini"
                             [("system", sys); ("user", sanitize m)]
                             (mt_of body) (temp_of body))]).
Proof.
  intros body openai sys.
  destruct (snd (handleMainGpt body openai sys)) as [| call rest] eqn:E; [left; reflexivity |].
  right. assert (Hin : In call (snd (handleMainGpt body openai sys))) by (rewrite E; left; reflexivity).
  destruct (handleMainGpt_calls_valid _ _ _ _ Hin) as [m Hv].
  exists m. split; [exact (proj1 Hv) |]. rewrite <- E.
  exact (handleMainGpt_calls_shape body openai sys m Hv).
Qed.

Lemma handlePublicGpt_calls_shape : forall body openai sys m, public_valid body m ->
  let mreq := mk_moderation_request "text-moderation-latest" m in
  let creq := mk_completion_request "gpt-4o-mini" [("system", sys); ("user", m)]
                (mt_of body) (temp_of body) in
  snd (handlePublicGpt body openai sys) = [CallModeration mreq]
  \/ snd (handlePublicGpt body openai sys) = [CallModeration mreq; CallCompletion creq].
Proof.
  intros body openai sys m Hv mreq creq.
  rewrite (handlePublicGpt_unfold_valid _ _ _ _ Hv). cbv zeta. fold mreq.
  destruct (public_completion_calls openai sys m (mt_of body) (temp_of body)
              [CallModeration mreq]) as [cr [Hc Hcr]].
  fold creq in Hcr. subst cr.
  destruct (moderations_create openai mreq) as [mo |];
    [destruct (results mo) as [| r0 rest];
       [| destruct (0 <? List.length (flagged_keys (categories r0)))%nat] |];
    solve [left; reflexivity | right; exact Hc].
Qed.

(** X5: handlePublicGpt makes no provider call, or exactly the moderation
    call on the raw message with model text-moderation-latest, or that call
    followed by one completion call carrying the raw message. *)
Theorem public_provider_calls : forall body openai sys,
  snd (handlePublicGpt body openai sys) = []
  \/ exists m, message body = Some m /\
     (snd (handlePublicGpt body openai sys)
        = [CallModeration (mk_moderation_request "text-moderation-latest" m)]
      \/ snd (handlePublicGpt body openai sys)
        = [CallModeration (mk_moderation_request "text-moderation-latest" m);
           CallCompletion (mk_completion_request "gpt-4o-mini" [("system", sys); ("user", m)]
                             (mt_of body) (temp_of body))]).
Proof.
  intros body openai sys.
  destruct (snd (handlePublicGpt body openai sys)) as [| call rest] eqn:E; [left; reflexivity |].
  right. assert (Hin : In call (snd (handlePublicGpt body openai sys))) by (rewrite E; left; reflexivity).
  destruct (handlePublicGpt_calls_valid _ _ _ _ Hin) as [m Hv].
  exists m. split; [exact (proj1 Hv) |]. rewrite <- E.
  exact (handlePublicGpt_calls_shape body openai sys m Hv).
Qed.

Lemma handleMainGpt_200_valid : forall body openai sys,
  status (fst (handleMainGpt body openai sys)) = 200 -> exists m, main_valid body m.
Proof.
  intros body openai sys H.
  unfold handleMainGpt in H. fold (mt_of body) (temp_of body) in H.
  destruct (message body) as [[| c m'] |] eqn:Hm; try (cbn in H; discriminate).
  destruct (4000 <? List.length (c :: m'))%nat eqn:Hlen; [cbn in H; discriminate |].
  destruct (q_lt (mt_of body) 1 || q_lt 1000 (mt_of body)) eqn:Hmt; [cbn in H; discriminate |].
  destruct (q_lt (temp_of body) 0 || q_lt 1 (temp_of body)) eqn:Ht; [cbn in H; discriminate |].
  exists (c :: m'). repeat split; auto; [discriminate | apply Nat.ltb_ge; exact Hlen].
Qed.

Lemma main_completion_200 : forall openai sys sm mt temp calls,
  status (fst (main_completion openai sys sm mt temp calls)) = 200 ->
  exists comp r rest,
    chat_completions_create openai
      (mk_completion_request "gpt-4o-mini" [("system", sys); ("user", sm)] mt temp) = inl comp
    /\ choices comp = r :: rest
    /\ fst (main_completion openai sys sm mt temp calls)
       = mk_response 200 (JObj [("success", JBool true); ("response", JStr r);
                                ("usage", usage comp); ("model", JStr (c_model comp))]).
Proof.
  intros openai sys sm mt temp calls H. unfold main_completion in *.
  destruct (chat_completions_create openai _) as [comp | e] eqn:E.
  - destruct (choices comp) as [| r rest] eqn:Ec.
    + exfalso. exact (main_error_response_status _ H).
    + exists comp, r, rest. auto.
  - exfalso. exact (main_error_response_status _ H).
Qed.

(** X6: handleMainGpt answers 200 only after validation has passed and the
    completion call on the sanitized message has returned at least one
    choice; the body is [success: true], the first choice's content, the
    usage and the model of the completion. *)
Theorem main_success_response : forall body openai sys,
  status (fst (handleMainGpt body openai sys)) = 200 ->
  exists m comp r rest,
    main_valid body m
    /\ chat_completions_create openai
         (mk_completion_request "gpt-4o-mini" [("system", sys); ("user", sanitize m)]
            (mt_of body) (temp_of body)) = inl comp
    /\ choices comp = r :: rest
    /\ fst (handleMainGpt body openai sys)
       = mk_response 200 (JObj [("success", JBool true); ("response", JStr r);
                                ("usage", usage comp); ("model", JStr (c_model comp))]).
Proof.
  intros body openai sys H.
  destruct (handleMainGpt_200_valid _ _ _ H) as [m Hv].
  rewrite (handleMainGpt_unfold_valid _ _ _ _ Hv) in H |- *. cbv zeta in H |- *.
  destruct (moderations_create openai _) as [mo |];
    [destruct (results mo) as [| r0 rest0]; [| destruct (flagged r0)] |];
    try (cbn in H; discriminate);
    destruct (main_completion_200 _ _ _ _ _ _ H) as (comp & r & rest & H1 & H2 & H3);
    exists m, comp, r, rest; auto.
Qed.

Lemma main_success_response_witness :
  status (fst (handleMainGpt body_hi openai_ok sys0)) = 200
  /\ exists m comp r rest,
    main_valid body_hi m
    /\ chat_completions_create openai_ok
         (mk_completion_request "gpt-4o-mini" [("system", sys0); ("user", sanitize m)]
            (mt_of body_hi) (temp_of body_hi)) = inl comp
    /\ choices comp = r :: rest
    /\ fst (handleMainGpt body_hi openai_ok sys0)
       = mk_response 200 (JObj [("success", JBool true); ("response", JStr r);
                                ("usage", usage comp); ("model", JStr (c_model comp))]).
Proof.
  assert (H : status (fst (handleMainGpt body_hi openai_ok sys0)) = 200) by (vm_compute; reflexivity).
  split; [exact H | exact (main_success_response _ _ _ H)].
Defined.

Lemma handlePublicGpt_200_valid : forall body openai sys,
  status (fst (handlePublicGpt body openai sys)) = 200 -> exists m, public_valid body m.
Proof.
  intros body openai sys H.
  unfold handlePublicGpt in H. fold (mt_of body) (temp_of body) in H.
  destruct (message body) as [[| c m'] |] eqn:Hm; try (cbn in H; discriminate).
  destruct (List.length (trim (c :: m')) =? 0)%nat eqn:E; [cbn in H; discriminate |].
  destruct (q_lt (mt_of body) 1 || q_lt 1000 (mt_of body)) eqn:Hmt; [cbn in H; discriminate |].
  exists (c :: m'). repeat split; auto; [discriminate |].
  intros Htr. rewrite Htr in E. discriminate.
Qed.

Lemma public_completion_200 : forall openai sys m mt temp calls,
  status (fst (public_completion openai sys m mt temp calls)) = 200 ->
  exists comp r rest,
    chat_completions_create openai
      (mk_completion_request "gpt-4o-mini" [("system", sys); ("user", m)] mt temp) = inl comp
    /\ choices comp = r :: rest
    /\ fst (public_completion openai sys m mt temp calls)
       = mk_response 200 (JObj [("response", JStr r); ("usage", usage comp);
                                ("model", JStr (c_model comp))]).
Proof.
  intros openai sys m mt temp calls H. unfold public_completion in *.
  destruct (chat_completions_create openai _) as [comp | e] eqn:E.
  - destruct (choices comp) as [| r rest] eqn:Ec.
    + exfalso. exact (public_error_response_status _ H).
    + exists comp, r, rest. auto.
  - exfalso. exact (public_error_response_status _ H).
Qed.

(** X7: handlePublicGpt answers 200 only when validation has passed, the
    moderation call on the raw message returned a first result with no
    category set, and the completion call returned at least one choice; the
    body is the first choice's content, the usage and the model (no
    [success] field). *)
Theorem public_success_response : forall body openai sys,
  status (fst (handlePublicGpt body openai sys)) = 200 ->
  exists m r0 rest0 comp r rest,
    public_valid body m
    /\ moderations_create openai (mk_moderation_request "text-moderation-latest" m)
       = inl (mk_moderation_response (r0 :: rest0))
    /\ flagged_keys (categories r0) = []
    /\ chat_completions_create openai
         (mk_completion_request "gpt-4o-mini" [("system", sys); ("user", m)]
            (mt_of body) (temp_of body)) = inl comp
    /\ choices comp = r :: rest
    /\ fst (handlePublicGpt body openai sys)
       = mk_response 200 (JObj [("response", JStr r); ("usage", usage comp);
                                ("model", JStr (c_model comp))]).
Proof.
  intros body openai sys H.
  destruct (handlePublicGpt_200_valid _ _ _ H) as [m Hv].
  rewrite (handlePublicGpt_unfold_valid _ _ _ _ Hv) in H |- *. cbv zeta in H |- *.
  destruct (moderations_create openai _) as [[[| r0 rest0]] | e] eqn:Em;
    try (exfalso; apply (public_error_response_status _ H)).
  cbn [results] in H |- *.
  destruct (0 <? List.length (flagged_keys (categories r0)))%nat eqn:Ef; [cbn in H; discriminate |].
  destruct (public_completion_200 _ _ _ _ _ _ H) as (comp & r & rest & H1 & H2 & H3).
  exists m, r0, rest0, comp, r, rest.
  refine (conj Hv (conj Em (conj _ (conj H1 (conj H2 H3))))).
  destruct (flagged_keys (categories r0)); [reflexivity | cbn in Ef; discriminate].
Qed.

Lemma public_success_response_witness :
  status (fst (handlePublicGpt body_hi openai_ok sys0)) = 200
  /\ exists m r0 rest0 comp r rest,
    public_valid body_hi m
    /\ moderations_create openai_ok (mk_moderation_request "text-moderation-latest" m)
       = inl (mk_moderation_response (r0 :: rest0))
    /\ flagged_keys (categories r0) = []
    /\ chat_completions_create openai_ok
         (mk_completion_request "gpt-4o-mini" [("system", sys0); ("user", m)]
            (mt_of body_hi) (temp_of body_hi)) = inl comp
    /\ choices comp = r :: rest
    /\ fst (handlePublicGpt body_hi openai_ok sys0)
       = mk_response 200 (JObj [("response", JStr r); ("usage", usage comp);
                                ("model", JStr (c_model comp))]).
Proof.
  assert (H : status (fst (handlePublicGpt body_hi openai_ok sys0)) = 200) by (vm_compute; reflexivity).
  split; [exact H | exact (public_success_response _ _ _ H)].
Defined.

(** X8: handlePublicGpt checks neither the temperature nor the length of
    the message: once the message is non-blank, maxTokens is in range and the
    moderation result sets no category, the message is sent to the completion
    endpoint with the request's temperature, whatever its value and the
    message's length. *)
Theorem public_forwards_unchecked_temperature : forall body openai sys m r0 rest0,
  public_valid body m ->
  moderations_create openai (mk_moderation_request "text-moderation-latest" m)
    = inl (mk_moderation_response (r0 :: rest0)) ->
  flagged_keys (categories r0) = [] ->
  snd (handlePublicGpt body openai sys)
  = [CallModeration (mk_moderation_request "text-moderation-latest" m);
     CallCompletion (mk_completion_request "gpt-4o-mini" [("system", sys); ("user", m)]
                       (mt_of body) (temp_of body))].
Proof.
  intros body openai sys m r0 rest0 Hv Hmod Hf.
  rewrite (handlePublicGpt_unfold_valid _ _ _ _ Hv). cbv zeta. rewrite Hmod.
  cbn [results]. rewrite Hf. cbn [List.length Nat.ltb Nat.leb].
  destruct (public_completion_calls openai sys m (mt_of body) (temp_of body)
              [CallModeration (mk_moderation_request "text-moderation-latest" m)])
    as [cr [Hc ->]].
  exact Hc.
Qed.

Lemma public_forwards_unchecked_temperature_witness :
  let body := mk_body (Some (js "hi")) None (Some (2 # 1)) in
  public_valid body (js "hi")
  /\ snd (handlePublicGpt body openai_ok sys0)
     = [CallModeration (mk_moderation_request "text-moderation-latest" (js "hi"));
        CallCompletion (mk_completion_request "gpt-4o-mini" [("system", sys0); ("user", js "hi")]
                          (150 # 1) (2 # 1))].
Proof.
  intros body.
  assert (Hv : public_valid body (js "hi")).
  { unfold public_valid. vm_compute. repeat split; try reflexivity; discriminate. }
  split; [exact Hv |].
  exact (public_forwards_unchecked_temperature body openai_ok sys0 (js "hi")
           (mk_moderation_result false [("harassment", false); ("violence", false)]) []
           Hv eq_refl eq_refl).
Defined.

Lemma trim_start_all_ws : forall m, forallb is_js_whitespace m = true -> trim_start m = [].
Proof.
  induction m as [| c m IH]; cbn [forallb trim_start]; intros H; [reflexivity |].
  apply andb_true_iff in H as [H1 H2]. rewrite H1. exact (IH H2).
Qed.

Lemma ws_no_lt : forall m, forallb is_js_whitespace m = true -> ~ In 60 m.
Proof.
  intros m H Hin. rewrite forallb_forall in H. specialize (H 60 Hin). discriminate.
Qed.

(** X9: a non-empty message of whitespace only is refused by handlePublicGpt
    with 400 "Message cannot be empty" and no provider call, while
    handleMainGpt (within its limits) sanitizes it to the empty string and
    sends that to moderation. *)
Theorem whitespace_message : forall body openai sys m,
  main_valid body m -> forallb is_js_whitespace m = true ->
  handlePublicGpt body openai sys = (bad_request "Message cannot be empty", [])
  /\ exists rest, snd (handleMainGpt body openai sys)
                  = CallModeration (mk_moderation_request "omni-moderation-latest" []) :: rest.
Proof.
  intros body openai sys m Hv Hws.
  assert (Hs : sanitize m = []).
  { rewrite (SanitizeFacts.sanitize_no_lt m (ws_no_lt m Hws)).
    unfold trim. rewrite (trim_start_all_ws m Hws). reflexivity. }
  split.
  - destruct Hv as (Hm & Hne & _). unfold handlePublicGpt. rewrite Hm.
    destruct m as [| c m']; [congruence |].
    unfold trim. rewrite (trim_start_all_ws _ Hws). reflexivity.
  - destruct (handleMainGpt_calls_shape body openai sys m Hv) as [H | H];
      rewrite Hs in H; rewrite H; eexists; reflexivity.
Qed.

Lemma whitespace_message_witness :
  let body := mk_body (Some (js " 	 ")) None None in
  handlePublicGpt body openai_ok sys0 = (bad_request "Message cannot be empty", [])
  /\ exists rest, snd (handleMainGpt body openai_ok sys0)
                  = CallModeration (mk_moderation_request "omni-moderation-latest" []) :: rest.
Proof.
  intros body. apply (whitespace_message body openai_ok sys0 (js " 	 ")).
  - unfold main_valid. vm_compute. repeat split; try reflexivity; try discriminate; lia.
  - vm_compute. reflexivity.
Defined.

End HandlerFacts.

Module StoreFacts.
Import Store Fixtures.

Lemma filter_all_true : forall {A} (p : A -> bool) (l : list A),
  (forall x, In x l -> p x = true) -> filter p l = l.
Proof.
  intros A p l H. induction l as [| x l IH]; simpl; [reflexivity |].
  rewrite (H x (or_introl eq_refl)), IH by (intros; apply H; right; assumption).
  reflexivity.
Qed.

Lemma store_eta : forall st, mk_store (conversations st) (messages st) (next_id st) = st.
Proof. destruct st; reflexivity. Qed.

Lemma not_owns : forall st u cid c, owns st u cid = false -> In c (conversations st) ->
  ((conv_id c =? cid)%nat && (conv_user c =? u)%nat) = false.
Proof.
  intros st u cid c H Hin. unfold owns in H.
  destruct ((conv_id c =? cid)%nat && (conv_user c =? u)%nat) eqn:E; [| reflexivity].
  assert (existsb (fun c => (conv_id c =? cid)%nat && (conv_user c =? u)%nat)
            (conversations st) = true) by (apply existsb_exists; eauto).
  congruence.
Qed.

(** For a caller that does not own [cid], the select of the conversation
    returns no row. *)
Lemma select_conversation_user_not_owner : forall st u cid, owns st u cid = false ->
  filter (fun c => conv_visible u c && (conv_id c =? cid)%nat) (conversations st) = [].
Proof.
  intros st u cid H.
  rewrite (filter_ext_in _ (fun _ => false)), filter_false; [reflexivity |].
  intros c Hin. pose proof (not_owns _ _ _ _ H Hin) as E. unfold conv_visible.
  rewrite andb_comm. exact E.
Qed.

(** C3 (amended): for a caller who does not own conversation [cid], reading
    or adding messages throws (the route answers 500 with the message), while
    updating the title or deleting the conversation throws nothing and
    reports success; in every case the stored conversations and messages are
    left unchanged. *)
Theorem C3_non_owner_cannot_read_or_modify : forall st cid u role content title,
  owns st u cid = false ->
  (exists e, getConversationMessages cid u u st = (inr e, st))
  /\ (exists e, addMessage cid u role content u st = (inr e, st))
  /\ updateConversationTitle cid u title u st = (inl tt, st)
  /\ deleteConversation cid u u st = (inl tt, st).
Proof.
  intros st cid u role content title H.
  pose proof (select_conversation_user_not_owner _ _ _ H) as Hsel.
  split; [| split; [| split]].
  - eexists. unfold getConversationMessages, bind, or_throw, sb_select_conversation_user.
    rewrite Hsel. reflexivity.
  - eexists. unfold addMessage, bind, or_throw, sb_select_conversation_user.
    rewrite Hsel. reflexivity.
  - unfold updateConversationTitle, bind, or_throw, sb_update_title, ret.
    rewrite (map_ext_in _ (fun c => c)), map_id, store_eta; [reflexivity |].
    intros c Hin. pose proof (not_owns _ _ _ _ H Hin) as E. unfold conv_visible.
    destruct (conv_id c =? cid)%nat, (conv_user c =? u)%nat; simpl in *; congruence.
  - unfold deleteConversation, bind, or_throw, sb_delete_messages, sb_delete_conversation, ret.
    simpl.
    rewrite (filter_all_true _ (messages st)).
    2:{ intros m _. unfold msg_visible.
        destruct (msg_conv m =? cid)%nat eqn:E; [| rewrite andb_false_r; reflexivity].
        apply Nat.eqb_eq in E. rewrite E, H. reflexivity. }
    rewrite (filter_all_true _ (conversations st)).
    2:{ intros c Hin. pose proof (not_owns _ _ _ _ H Hin) as E. unfold conv_visible.
        destruct (conv_id c =? cid)%nat, (conv_user c =? u)%nat; simpl in *; congruence. }
    rewrite store_eta. reflexivity.
Qed.

Lemma C3_non_owner_cannot_read_or_modify_witness :
  (exists e, getConversationMessages 1 8 8 st_demo = (inr e, st_demo))
  /\ (exists e, addMessage 1 8 "user" "hi" 8 st_demo = (inr e, st_demo))
  /\ updateConversationTitle 1 8 "Mine now" 8 st_demo = (inl tt, st_demo)
  /\ deleteConversation 1 8 8 st_demo = (inl tt, st_demo).
Proof. apply C3_non_owner_cannot_read_or_modify. reflexivity. Defined.

(** C3 as stated fails: renaming another user's conversation raises no
    error, and the route answers 200 with [success: true]. *)
Lemma C3_rename_by_non_owner_succeeds :
  updateConversationTitle 1 8 "Mine now" 8 st_demo = (inl tt, st_demo)
  /\ route_response success_json (fst (updateConversationTitle 1 8 "Mine now" 8 st_demo))
     = mk_response 200 (JObj [("success", JBool true)]).
Proof. vm_compute. split; reflexivity. Qed.

(** C6: deleting a conversation its owner asked for first removes every
    message of the conversation (leaving the conversations as they were), then
    the conversation row; afterwards neither remains. *)
Theorem C6_delete_removes_messages_first : forall st cid u,
  owns st u cid = true ->
  let st1 := snd (sb_delete_messages u cid st) in
  (forall m, In m (messages st1) -> msg_conv m <> cid)
  /\ conversations st1 = conversations st
  /\ deleteConversation cid u u st = (inl tt, snd (sb_delete_conversation u cid u st1))
  /\ (forall m, In m (messages (snd (deleteConversation cid u u st))) -> msg_conv m <> cid)
  /\ owns (snd (deleteConversation cid u u st)) u cid = false.
Proof.
  intros st cid u H st1.
  assert (Hm : forall m, In m (messages st1) -> msg_conv m <> cid).
  { intros m Hin Heq. unfold st1, sb_delete_messages in Hin. simpl in Hin.
    apply filter_In in Hin as [_ Hp]. unfold msg_visible in Hp.
    rewrite Heq, H, Nat.eqb_refl in Hp. discriminate. }
  assert (Hd : deleteConversation cid u u st = (inl tt, snd (sb_delete_conversation u cid u st1)))
    by reflexivity.
  split; [exact Hm | split; [reflexivity | split; [exact Hd | split]]].
  - rewrite Hd. exact Hm.
  - rewrite Hd. unfold owns, sb_delete_conversation. simpl.
    destruct (existsb _ _) eqn:E; [| reflexivity].
    apply existsb_exists in E as [c [Hin Hc]].
    apply filter_In in Hin as [_ Hp]. unfold conv_visible in Hp.
    apply andb_true_iff in Hc as [Hc1 Hc2]. rewrite Hc1, Hc2 in Hp. discriminate.
Qed.

Lemma C6_delete_removes_messages_first_witness :
  let st1 := snd (sb_delete_messages 7 1 st_demo) in
  (forall m, In m (messages st1) -> msg_conv m <> 1%nat)
  /\ conversations st1 = conversations st_demo
  /\ deleteConversation 1 7 7 st_demo = (inl tt, snd (sb_delete_conversation 7 1 7 st1))
  /\ (forall m, In m (messages (snd (deleteConversation 1 7 7 st_demo))) -> msg_conv m <> 1%nat)
  /\ owns (snd (deleteConversation 1 7 7 st_demo)) 7 1 = false.
Proof. apply C6_delete_removes_messages_first. reflexivity. Defined.

(** C6 as stated fails: a delete by a caller who does not own the
    conversation succeeds, and the conversation's messages remain. *)
Lemma C6_delete_by_non_owner_keeps_messages :
  deleteConversation 1 8 8 st_demo = (inl tt, st_demo)
  /\ exists m, In m (messages (snd (deleteConversation 1 8 8 st_demo))) /\ msg_conv m = 1%nat.
Proof.
  split; [reflexivity |].
  exists (mk_message 2 1 "user" "What is a group?"). split; [left; reflexivity | reflexivity].
Qed.

Lemma count_user_app : forall l c u,
  List.length (filter (fun c => (conv_user c =? u)%nat) (l ++ [c]))
  = (List.length (filter (fun c => (conv_user c =? u)%nat) l)
     + if (conv_user c =? u)%nat then 1 else 0)%nat.
Proof.
  intros. rewrite filter_app, length_app. simpl.
  destruct (conv_user c =? u)%nat; reflexivity.
Qed.

Lemma count_filter_le : forall (p : conversation -> bool) l u,
  (List.length (filter (fun c => (conv_user c =? u)%nat) (filter p l))
   <= List.length (filter (fun c => (conv_user c =? u)%nat) l))%nat.
Proof.
  intros p l u. induction l as [| c l IH]; simpl; [lia |].
  destruct (p c); simpl; destruct (conv_user c =? u)%nat; simpl; lia.
Qed.

Lemma count_rename : forall (q : conversation -> bool) title l u,
  List.length (filter (fun c => (conv_user c =? u)%nat)
    (map (fun c => if q c then mk_conversation (conv_id c) (conv_user c) title else c) l))
  = List.length (filter (fun c => (conv_user c =? u)%nat) l).
Proof.
  intros q title l u. induction l as [| c l IH]; simpl; [reflexivity |].
  destruct (q c); simpl; destruct (conv_user c =? u)%nat; simpl; lia.
Qed.

(** Case analysis on the select of a conversation, then on the owner test. *)
Ltac split_owner_check :=
  match goal with
  | |- context [filter ?p (conversations ?st)] =>
      destruct (filter p (conversations st)) as [| ? [| ? ?]]; cbv beta iota
  end;
  try match goal with
  | |- context [negb ?b] => destruct (negb b); cbv beta iota
  end.

(** Every call keeps each user at or below [conversation_limit]. *)
Lemma run_call_limit : forall c st,
  (forall u, (count_user st u <= conversation_limit)%nat) ->
  forall u, (count_user (run_call c st) u <= conversation_limit)%nat.
Proof.
  intros c st IH u. destruct c; simpl.
  - unfold createConversation, or_throw, sb_insert_conversation.
    destruct (negb (userId =? accessToken)%nat); cbv beta iota; [apply IH |].
    destruct (conversation_limit <=? count_user st userId)%nat eqn:Hfull; cbv beta iota;
      [apply IH |].
    unfold count_user in *. cbn [snd conversations]. rewrite count_user_app. simpl.
    destruct (userId =? u)%nat eqn:E; [| rewrite Nat.add_0_r; apply IH].
    apply Nat.eqb_eq in E. subst. apply Nat.leb_gt in Hfull. lia.
  - apply IH.
  - unfold count_user in *. simpl. rewrite count_rename. apply IH.
  - unfold count_user in *. simpl.
    etransitivity; [apply count_filter_le | apply IH].
  - unfold getConversationMessages, bind, or_throw, throw, sb_select_conversation_user,
      sb_select_messages.
    split_owner_check; apply IH.
  - unfold addMessage, bind, or_throw, throw, sb_select_conversation_user, sb_insert_message.
    split_owner_check; try apply IH.
    destruct (owns st accessToken conversationId); cbv beta iota; [| apply IH].
    destruct (message_role_ok role); cbv beta iota; [| apply IH].
    unfold count_user in *. apply IH.
Qed.

(** C7: in every state reachable from the empty store by any sequence of
    calls, every user owns at most 3 conversations. *)
Theorem C7_reachable_at_most_three : forall st, reachable st ->
  forall u, (count_user st u <= 3)%nat.
Proof.
  intros st Hr. induction Hr as [| c st Hr IH].
  - intros u. unfold count_user. simpl. lia.
  - apply (run_call_limit c st IH).
Qed.

Lemma C7_reachable_at_most_three_witness :
  (count_user
     (run_call (CreateConversation 7 "d" 7)
       (run_call (CreateConversation 7 "c" 7)
         (run_call (CreateConversation 7 "b" 7)
           (run_call (CreateConversation 7 "a" 7) empty_store)))) 7 <= 3)%nat.
Proof.
  apply C7_reachable_at_most_three.
  repeat apply reachable_step. apply reachable_init.
Defined.

Example fourth_conversation_refused :
  fst (createConversation 7 "d" 7
         (run_call (CreateConversation 7 "c" 7)
           (run_call (CreateConversation 7 "b" 7)
             (run_call (CreateConversation 7 "a" 7) empty_store))))
  = inr "Failed to create conversation".
Proof. vm_compute. reflexivity. Qed.

(** ** Further properties of the store operations *)

Lemma select_user_ok : forall st auth cid owner,
  fst (sb_select_conversation_user auth cid st) = inl owner ->
  exists c, filter (fun c => conv_visible auth c && (conv_id c =? cid)%nat) (conversations st) = [c]
            /\ conv_user c = owner.
Proof.
  intros st auth cid owner H. unfold sb_select_conversation_user in H.
  destruct (filter _ (conversations st)) as [| c [| ? ?]] eqn:E; try discriminate.
  injection H as <-. exists c. auto.
Qed.

Lemma visible_owns : forall st u cid,
  filter (fun c => conv_visible u c && (conv_id c =? cid)%nat) (conversations st) <> [] ->
  owns st u cid = true.
Proof.
  intros st u cid H. unfold owns.
  destruct (filter _ (conversations st)) as [| c rest] eqn:E; [congruence |].
  assert (Hin : In c (filter (fun c => conv_visible u c && (conv_id c =? cid)%nat) (conversations st)))
    by (rewrite E; left; reflexivity).
  apply filter_In in Hin as [Hin Hp]. apply existsb_exists. exists c. split; [exact Hin |].
  unfold conv_visible in Hp. rewrite andb_comm. exact Hp.
Qed.

(** X16: when the owner can read conversation [cid], adding a message with
    role user or assistant to it succeeds, stores the role and content given,
    and a read afterwards returns the messages read before together with the
    new one. *)
Theorem add_then_read_message : forall st cid u role content ms,
  getConversationMessages cid u u st = (inl ms, st) -> message_role_ok role = true ->
  exists m st', addMessage cid u role content u st = (inl m, st')
    /\ msg_conv m = cid /\ msg_role m = role /\ msg_content m = content
    /\ exists ms', getConversationMessages cid u u st' = (inl ms', st')
       /\ (forall x, In x ms' <-> In x ms \/ x = m).
Proof.
  intros st cid u role content ms Hget Hrole.
  unfold getConversationMessages, bind, or_throw, sb_select_conversation_user, throw,
    sb_select_messages in Hget |- *.
  destruct (filter (fun c => conv_visible u c && (conv_id c =? cid)%nat) (conversations st))
    as [| c [| ? ?]] eqn:Esel; try discriminate.
  destruct (negb (conv_user c =? u)%nat) eqn:Eo; [discriminate |].
  injection Hget as Hms.
  assert (Hown : owns st u cid = true) by (apply visible_owns; rewrite Esel; discriminate).
  unfold addMessage, bind, or_throw, sb_select_conversation_user, throw, sb_insert_message.
  rewrite Esel, Eo, Hown, Hrole.
  set (m := mk_message (next_id st) cid role content).
  eexists m, _. split; [reflexivity |]. split; [reflexivity | split; [reflexivity | split; [reflexivity |]]].
  cbn [conversations messages]. rewrite Esel, Eo.
  eexists. split; [reflexivity |].
  intros x. cbn [messages]. rewrite filter_app, <- Hms.
  change (msg_visible (mk_store (conversations st) (messages st ++ [m]) (S (next_id st))) u)
    with (msg_visible st u).
  cbn [filter].
  replace (msg_visible st u m && (msg_conv m =? cid)%nat) with true
    by (unfold msg_visible, m; cbn [msg_conv]; rewrite Hown, Nat.eqb_refl; reflexivity).
  rewrite in_app_iff. cbn [In]. intuition.
Qed.

Lemma add_then_read_message_witness :
  exists m st', addMessage 1 7 "user" "And a ring?" 7 st_demo = (inl m, st')
    /\ msg_conv m = 1%nat /\ msg_role m = "user" /\ msg_content m = "And a ring?"
    /\ exists ms', getConversationMessages 1 7 7 st' = (inl ms', st')
       /\ (forall x, In x ms' <-> In x (messages st_demo) \/ x = m).
Proof. apply add_then_read_message; reflexivity. Defined.

(** X17: a conversation created successfully belongs to the caller and has
    the title given, and afterwards the caller's list holds the conversations
    listed before together with the new one. *)
Theorem create_then_list : forall st u title c st',
  createConversation u title u st = (inl c, st') ->
  conv_user c = u /\ conv_title c = title
  /\ exists l l', getUserConversations u u st = (inl l, st)
     /\ getUserConversations u u st' = (inl l', st')
     /\ (forall x, In x l' <-> In x l \/ x = c).
Proof.
  intros st u title c st' H.
  unfold createConversation, or_throw, sb_insert_conversation in H.
  rewrite Nat.eqb_refl in H. cbn [negb] in H.
  destruct (conversation_limit <=? count_user st u)%nat; [discriminate |].
  injection H as <- <-. split; [reflexivity | split; [reflexivity |]].
  do 2 eexists. split; [reflexivity | split; [reflexivity |]].
  intros x. cbn [conversations]. rewrite filter_app, in_app_iff. cbn [filter].
  unfold conv_visible. cbn [conv_user]. rewrite Nat.eqb_refl. cbn [andb In]. intuition.
Qed.

Lemma create_then_list_witness :
  conv_user (mk_conversation 4 7 "Rings") = 7%nat /\ conv_title (mk_conversation 4 7 "Rings") = "Rings"
  /\ exists l l', getUserConversations 7 7 st_demo = (inl l, st_demo)
     /\ getUserConversations 7 7
          (mk_store (conversations st_demo ++ [mk_conversation 4 7 "Rings"]) (messages st_demo) 5)
        = (inl l', mk_store (conversations st_demo ++ [mk_conversation 4 7 "Rings"]) (messages st_demo) 5)
     /\ (forall x, In x l' <-> In x l \/ x = mk_conversation 4 7 "Rings").
Proof. apply create_then_list. reflexivity. Defined.

(** X19: once the owner has deleted conversation [cid], reading its messages
    and adding a message to it both throw "Conversation not found", and the
    store is left as it is. *)
Theorem deleted_conversation_not_found : forall st cid u role content,
  let st' := snd (deleteConversation cid u u st) in
  getConversationMessages cid u u st' = (inr "Conversation not found", st')
  /\ addMessage cid u role content u st' = (inr "Conversation not found", st').
Proof.
  intros st cid u role content st'.
  assert (Hsel : filter (fun c => conv_visible u c && (conv_id c =? cid)%nat) (conversations st') = []).
  { apply select_conversation_user_not_owner.
    unfold st', owns. cbn. destruct (existsb _ _) eqn:E; [| reflexivity].
    apply existsb_exists in E as [c [Hin Hc]].
    apply filter_In in Hin as [_ Hp]. unfold conv_visible in Hp.
    apply andb_true_iff in Hc as [Hc1 Hc2]. rewrite Hc1, Hc2 in Hp. discriminate. }
  split; unfold getConversationMessages, addMessage, bind, or_throw, sb_select_conversation_user;
    rewrite Hsel; reflexivity.
Qed.

(** X20: deleting conversation [cid] never touches the other conversations
    or their messages: every conversation with another id and every message
    of another conversation is still there afterwards. *)
Theorem delete_keeps_others : forall st cid u a,
  (forall c, In c (conversations st) -> conv_id c <> cid ->
     In c (conversations (snd (deleteConversation cid u a st))))
  /\ (forall m, In m (messages st) -> msg_conv m <> cid ->
     In m (messages (snd (deleteConversation cid u a st)))).
Proof.
  intros st cid u a. split.
  - intros c Hin Hne. cbn. apply filter_In. split; [exact Hin |].
    apply Nat.eqb_neq in Hne. rewrite Hne, andb_false_r. reflexivity.
  - intros m Hin Hne. cbn. apply filter_In. split; [exact Hin |].
    apply Nat.eqb_neq in Hne. rewrite Hne, andb_false_r. reflexivity.
Qed.

End StoreFacts.

Module RateLimitFacts.
Import RateLimit.

Lemma str_append_cancel_l : forall a b c : string, (a ++ b = a ++ c)%string -> b = c.
Proof. induction a as [| x a IH]; simpl; intros b c H; [exact H | injection H; auto]. Qed.

Lemma str_length_append : forall a b : string,
  String.length (a ++ b) = (String.length a + String.length b)%nat.
Proof. induction a as [| x a IH]; simpl; intros b; [reflexivity | rewrite IH; reflexivity]. Qed.

Lemma str_append_cancel_r : forall a b s : string, (a ++ s = b ++ s)%string -> a = b.
Proof.
  induction a as [| x a IH]; intros b s H; destruct b as [| y b]; simpl in H.
  - reflexivity.
  - apply (f_equal String.length) in H. simpl in H. rewrite str_length_append in H. lia.
  - apply (f_equal String.length) in H. simpl in H. rewrite str_length_append in H. lia.
  - injection H as <- H. f_equal. apply (IH b s H).
Qed.

Lemma allowed_in_app : forall l1 l2 k r,
  allowed_in (l1 ++ l2) k r = (allowed_in l1 k r + allowed_in l2 k r)%nat.
Proof. intros. unfold allowed_in. rewrite filter_app, length_app. reflexivity. Qed.

Lemma allowed_in_single : forall k' r' ok k r,
  allowed_in [(k', r', ok)] k r = if String.eqb k' k && (r' =? r) && ok then 1%nat else 0%nat.
Proof. intros. unfold allowed_in. simpl. destruct (String.eqb k' k && (r' =? r) && ok); reflexivity. Qed.

Lemma allowed_in_none : forall log k r,
  (forall e, In e log -> entry_key e = k -> entry_window e <> r) -> allowed_in log k r = 0%nat.
Proof.
  intros log k r H. unfold allowed_in.
  rewrite (filter_ext_in _ (fun _ => false)), filter_false; [reflexivity |].
  intros [[k' r'] ok] Hin.
  destruct (String.eqb k' k) eqn:Ek; [| reflexivity].
  destruct (r' =? r) eqn:Er; [| reflexivity].
  apply String.eqb_eq in Ek. apply Z.eqb_eq in Er. exfalso.
  exact (H _ Hin Ek Er).
Qed.

Lemma hit_inv : forall o st log req now,
  0 < windowMs o -> hits_inv o st log ->
  let '(e, st') := hit o st req now in
  hits_inv o st' (log ++ match e with Some x => [x] | None => [] end).
Proof.
  intros o st log req now Hw [Hkeys Hcap]. unfold hit.
  destruct (skip o req); [rewrite app_nil_r; split; assumption |].
  set (k0 := keyGenerator o req).
  (* the window the hit is counted in, and the new counter *)
  assert (Hnew : exists n r, (match st k0 with
                              | Some (n, r) => if now <? r then (S n, r) else (1%nat, now + windowMs o)
                              | None => (1%nat, now + windowMs o) end) = (n, r)
                 /\ (forall e, In e log -> entry_key e = k0 -> entry_window e <= r)
                 /\ (allowed_in log k0 r + 1 <= n)%nat).
  { specialize (Hkeys k0). destruct (st k0) as [[n rk] |].
    - destruct Hkeys as [Hle Hcnt]. destruct (now <? rk) eqn:Hlt.
      + exists (S n), rk. repeat split; auto. lia.
      + apply Z.ltb_ge in Hlt. exists 1%nat, (now + windowMs o). split; [reflexivity |].
        split.
        * intros e Hin Hk. specialize (Hle e Hin Hk). lia.
        * rewrite allowed_in_none; [lia |]. intros e Hin Hk. specialize (Hle e Hin Hk). lia.
    - exists 1%nat, (now + windowMs o). split; [reflexivity |]. split.
      + intros e Hin Hk. exfalso. exact (Hkeys e Hin Hk).
      + rewrite allowed_in_none; [lia |]. intros e Hin Hk. exfalso. exact (Hkeys e Hin Hk). }
  destruct Hnew as [n [r [Heq [Hle Hcnt]]]]. rewrite Heq.
  split.
  - intros k. unfold update_hits. destruct (String.eqb k k0) eqn:Ek.
    + apply String.eqb_eq in Ek. subst k. split.
      * intros e Hin Hk. apply in_app_or in Hin as [Hin | [<- | []]]; [exact (Hle e Hin Hk) | unfold entry_window; simpl; lia].
      * rewrite allowed_in_app, allowed_in_single, String.eqb_refl, Z.eqb_refl. simpl.
        destruct (n <=? max o)%nat; lia.
    + specialize (Hkeys k). assert (Hk0 : k0 <> k) by (intros ->; rewrite String.eqb_refl in Ek; discriminate).
      destruct (st k) as [[n' rk'] |].
      * destruct Hkeys as [Hle' Hcnt']. split.
        -- intros e Hin Hk. apply in_app_or in Hin as [Hin | [<- | []]]; [auto | contradiction].
        -- rewrite allowed_in_app, allowed_in_single.
           replace (String.eqb k0 k) with false by (symmetry; apply String.eqb_neq; exact Hk0).
           simpl. lia.
      * intros e Hin Hk. apply in_app_or in Hin as [Hin | [<- | []]]; [exact (Hkeys e Hin Hk) | contradiction].
  - intros k r'. rewrite allowed_in_app, allowed_in_single.
    specialize (Hcap k r').
    destruct (String.eqb k0 k) eqn:Ek; [| simpl; lia].
    destruct (r =? r') eqn:Er; [| simpl; lia].
    apply String.eqb_eq in Ek. apply Z.eqb_eq in Er. subst k r'.
    destruct (n <=? max o)%nat eqn:Hm; simpl; [| lia].
    apply Nat.leb_le in Hm. lia.
Qed.

Lemma run_hits_inv : forall o trace st log,
  0 < windowMs o -> hits_inv o st log ->
  hits_inv o (snd (run_hits o st trace)) (log ++ fst (run_hits o st trace)).
Proof.
  intros o trace. induction trace as [| [req now] rest IH]; intros st log Hw Hinv.
  - simpl. rewrite app_nil_r. exact Hinv.
  - simpl. pose proof (hit_inv o st log req now Hw Hinv) as Hstep.
    destruct (hit o st req now) as [e st'].
    specialize (IH st' _ Hw Hstep).
    destruct (run_hits o st' rest) as [log' st'']. simpl in *.
    destruct e as [x |]; simpl in *; [rewrite <- app_assoc in IH | rewrite app_nil_r in IH]; exact IH.
Qed.

(** In every window of every key, at most [max] requests are let through. *)
Lemma run_hits_cap : forall o trace k r, 0 < windowMs o ->
  (allowed_in (fst (run_hits o empty_hits trace)) k r <= max o)%nat.
Proof.
  intros o trace k r Hw.
  assert (H0 : hits_inv o empty_hits []).
  { split; [intros k' e [] | intros; unfold allowed_in; simpl; lia]. }
  exact (proj2 (run_hits_inv o trace empty_hits [] Hw H0) k r).
Qed.

(** C8: the authenticated limiter lets through at most 50 requests per key in
    each 15-minute window; its key is the session identifier when there is one,
    otherwise the SHA-256 hex digest of [req.ip + date + salt], so requests of
    one address on one day share a key, and on different days the hashed text
    differs. The public limiter lets through at most 10 requests per client
    address in each 15-minute window. *)
Theorem C8_rate_limit_policies : forall (sha256_hex : string -> string) (env : limiter_env),
  windowMs (limiter sha256_hex env) = 15 * 60 * 1000 /\ max (limiter sha256_hex env) = 50%nat
  /\ windowMs publicRateLimit = 15 * 60 * 1000 /\ max publicRateLimit = 10%nat
  /\ (forall req sid, truthy (sessionID req) = Some sid ->
        keyGenerator (limiter sha256_hex env) req = sid)
  /\ (forall req, truthy (sessionID req) = None ->
        keyGenerator (limiter sha256_hex env) req = sha256_hex (fallback_input env req))
  /\ (forall req1 req2, truthy (sessionID req1) = None -> truthy (sessionID req2) = None ->
        ip req1 = ip req2 ->
        keyGenerator (limiter sha256_hex env) req1 = keyGenerator (limiter sha256_hex env) req2)
  /\ (forall env' req, date_string env <> date_string env' ->
        RATE_LIMIT_SALT env = RATE_LIMIT_SALT env' ->
        fallback_input env req <> fallback_input env' req)
  /\ (forall req, keyGenerator publicRateLimit req =
                  match truthy (ip req) with Some a => a | None => remoteAddress req end)
  /\ (forall trace k r, (allowed_in (fst (run_hits (limiter sha256_hex env) empty_hits trace)) k r
                         <= 50)%nat)
  /\ (forall trace k r, (allowed_in (fst (run_hits publicRateLimit empty_hits trace)) k r
                         <= 10)%nat).
Proof.
  intros sha256_hex env.
  repeat split.
  - intros req sid H. simpl. rewrite H. reflexivity.
  - intros req H. simpl. rewrite H. reflexivity.
  - intros req1 req2 H1 H2 Hip. simpl. rewrite H1, H2.
    unfold fallback_input, ip_string. rewrite Hip. reflexivity.
  - intros env' req Hd Hs Heq. unfold fallback_input, salt in Heq. rewrite Hs in Heq.
    apply str_append_cancel_l, str_append_cancel_r in Heq. contradiction.
  - intros trace k r. apply (run_hits_cap (limiter sha256_hex env)). simpl. lia.
  - intros trace k r. apply (run_hits_cap publicRateLimit). simpl. lia.
Qed.

Example eleventh_public_request_refused :
  let req := mk_request None (Some "203.0.113.7") "203.0.113.7" "/api/public/gpt" in
  map (fun e => snd e)
      (fst (run_hits publicRateLimit empty_hits (map (fun t => (req, t)) (map Z.of_nat (seq 0 11)))))
  = [true; true; true; true; true; true; true; true; true; true; false].
Proof. vm_compute. reflexivity. Qed.

(** ** Further properties of the limiters *)

Lemma run_hits_skip : forall o st trace,
  run_hits o st trace = run_hits o st (filter (fun p => negb (skip o (fst p))) trace).
Proof.
  intros o st trace. revert st. induction trace as [| [req now] rest IH]; intros st;
    [reflexivity |].
  cbn [filter fst]. destruct (skip o req) eqn:Es; cbn [negb run_hits].
  - unfold hit at 1. rewrite Es. rewrite <- IH.
    destruct (run_hits o st rest). reflexivity.
  - destruct (hit o st req now) as [e st']. rewrite <- IH. reflexivity.
Qed.

(** X10: the authenticated limiter ignores requests to /health: removing them
    from any sequence of requests changes neither the hits it records nor its
    store. *)
Theorem limiter_ignores_health : forall sha256_hex env st trace,
  run_hits (limiter sha256_hex env) st trace
  = run_hits (limiter sha256_hex env) st
      (filter (fun p => negb (String.eqb (path (fst p)) "/health")) trace).
Proof. intros sha256_hex env st trace. apply run_hits_skip. Qed.

Lemma run_hits_key_local : forall o k trace st1 st2, st1 k = st2 k ->
  filter (key_is k) (fst (run_hits o st1 trace))
  = fst (run_hits o st2
           (filter (fun p => negb (skip o (fst p)) && String.eqb (keyGenerator o (fst p)) k) trace)).
Proof.
  intros o k trace. induction trace as [| [req now] rest IH]; intros st1 st2 Heq; [reflexivity |].
  cbn [filter fst run_hits]. unfold hit at 1.
  destruct (skip o req) eqn:Es; cbn [negb andb].
  - specialize (IH st1 st2 Heq). destruct (run_hits o st1 rest) as [l1 s1]. exact IH.
  - destruct (String.eqb (keyGenerator o req) k) eqn:Ek.
    + apply String.eqb_eq in Ek. cbn [run_hits]. unfold hit. rewrite Es. rewrite Ek, <- Heq.
      destruct (match st1 k with
                | Some (n, r) => if now <? r then (S n, r) else (1%nat, now + windowMs o)
                | None => (1%nat, now + windowMs o) end) as [n r].
      specialize (IH (update_hits st1 k (n, r)) (update_hits st2 k (n, r))
                     ltac:(unfold update_hits; rewrite String.eqb_refl; reflexivity)).
      destruct (run_hits o (update_hits st1 k (n, r)) rest) as [l1 s1].
      destruct (run_hits o (update_hits st2 k (n, r)) _) as [l2 s2].
      cbn [fst filter] in *. unfold key_is at 1. unfold entry_key. cbn [fst].
      rewrite String.eqb_refl. f_equal. exact IH.
    + set (k0 := keyGenerator o req) in *.
      destruct (match st1 k0 with
                | Some (n, r) => if now <? r then (S n, r) else (1%nat, now + windowMs o)
                | None => (1%nat, now + windowMs o) end) as [n r].
      specialize (IH (update_hits st1 k0 (n, r)) st2).
      destruct (run_hits o (update_hits st1 k0 (n, r)) rest) as [l1 s1].
      cbn [fst filter] in *. unfold key_is at 1. unfold entry_key. cbn [fst].
      rewrite Ek. apply IH. unfold update_hits.
      destruct (String.eqb k k0) eqn:E'; [| exact Heq].
      apply String.eqb_eq in E'. subst. rewrite String.eqb_refl in Ek. discriminate.
Qed.

(** X11: keys are independent: the hits recorded for key [k] over any
    sequence of requests are exactly those recorded when only the counted
    requests with key [k] are sent. *)
Theorem limiter_keys_independent : forall o trace k,
  filter (key_is k) (fst (run_hits o empty_hits trace))
  = fst (run_hits o empty_hits
           (filter (fun p => negb (skip o (fst p)) && String.eqb (keyGenerator o (fst p)) k) trace)).
Proof. intros o trace k. apply run_hits_key_local. reflexivity. Qed.

Lemma run_hits_window : forall o k r rest st n,
  st k = Some (n, r) ->
  Forall (fun p => skip o (fst p) = false /\ keyGenerator o (fst p) = k /\ snd p < r) rest ->
  map (fun e => (entry_window e, snd e)) (fst (run_hits o st rest))
  = map (fun i => (r, (i <=? max o)%nat)) (seq (S n) (List.length rest)).
Proof.
  intros o k r rest. induction rest as [| [req now] rest IH]; intros st n Hst Hall;
    [reflexivity |].
  inversion Hall as [| x l Hx Hrest]; subst. destruct Hx as (Hs & Hk & Ht).
  cbn [fst snd] in Hs, Hk, Ht.
  cbn [run_hits]. unfold hit. rewrite Hs, Hk, Hst.
  replace (now <? r) with true by (symmetry; apply Z.ltb_lt; exact Ht).
  specialize (IH (update_hits st k (S n, r)) (S n)
                 ltac:(unfold update_hits; rewrite String.eqb_refl; reflexivity) Hrest).
  destruct (run_hits o (update_hits st k (S n, r)) rest) as [l' st'].
  cbn [fst map List.length seq] in *. rewrite IH. reflexivity.
Qed.

(** X12: within one window: when a key's window has ended (or it has none),
    the request that opens a new window at [t0] and every later request of
    that key before [t0 + windowMs] are counted in that window, and the i-th
    of them is let through exactly when i <= max. *)
Theorem limiter_window_count : forall o st k req0 t0 rest,
  skip o req0 = false -> keyGenerator o req0 = k ->
  (st k = None \/ exists n r, st k = Some (n, r) /\ r <= t0) ->
  Forall (fun p => skip o (fst p) = false /\ keyGenerator o (fst p) = k
                   /\ snd p < t0 + windowMs o) rest ->
  map (fun e => (entry_window e, snd e)) (fst (run_hits o st ((req0, t0) :: rest)))
  = map (fun i => (t0 + windowMs o, (i <=? max o)%nat)) (seq 1 (S (List.length rest))).
Proof.
  intros o st k req0 t0 rest Hs Hk Hst Hall.
  cbn [run_hits]. unfold hit. rewrite Hs, Hk.
  replace (match st k with
           | Some (n, r) => if t0 <? r then (S n, r) else (1%nat, t0 + windowMs o)
           | None => (1%nat, t0 + windowMs o) end) with (1%nat, t0 + windowMs o).
  2:{ destruct Hst as [-> | (n & r & -> & Hr)]; [reflexivity |].
      replace (t0 <? r) with false by (symmetry; apply Z.ltb_ge; exact Hr). reflexivity. }
  pose proof (run_hits_window o k (t0 + windowMs o) rest (update_hits st k (1%nat, t0 + windowMs o)) 1
                ltac:(unfold update_hits; rewrite String.eqb_refl; reflexivity) Hall) as H.
  destruct (run_hits o (update_hits st k (1%nat, t0 + windowMs o)) rest) as [l st'].
  cbn [fst map seq] in *. rewrite H. reflexivity.
Qed.

Lemma limiter_window_count_witness :
  let req := mk_request None (Some "203.0.113.7") "203.0.113.7" "/api/public/gpt" in
  map (fun e => (entry_window e, snd e))
      (fst (run_hits publicRateLimit empty_hits
              ((req, 0) :: map (fun t => (req, t)) (map Z.of_nat (seq 1 11)))))
  = map (fun i => (0 + windowMs publicRateLimit, (i <=? max publicRateLimit)%nat)) (seq 1 12).
Proof.
  intros req.
  apply (limiter_window_count publicRateLimit empty_hits "203.0.113.7" req 0).
  - reflexivity.
  - reflexivity.
  - left. reflexivity.
  - apply Forall_forall. intros p Hp.
    apply in_map_iff in Hp as [t [<- Ht]]. apply in_map_iff in Ht as [n [<- Hn]].
    apply in_seq in Hn. cbn [fst snd].
    split; [reflexivity | split; [reflexivity | cbn [windowMs publicRateLimit]; lia]].
Defined.

End RateLimitFacts.

Module EncryptionFacts.
Import Encryption.

(** Boolean comparisons on [Z] to propositions, in a hypothesis. *)
Ltac zbool_in H :=
  repeat rewrite ?andb_true_iff, ?andb_false_iff, ?orb_true_iff, ?orb_false_iff,
    ?negb_true_iff, ?negb_false_iff, ?Z.leb_le, ?Z.leb_gt, ?Z.ltb_lt, ?Z.ltb_ge,
    ?Z.eqb_eq, ?Z.eqb_neq in H.

Lemma check_range_spec : forall f n s x,
  check_range f s n = true -> s <= x < s + Z.of_nat n -> f x = true.
Proof.
  intros f n. induction n as [| n IH]; intros s x H Hx; cbn [check_range] in H.
  - lia.
  - destruct (f s) eqn:Hs; [| discriminate].
    destruct (Z.eq_dec x s) as [-> | Hne]; [exact Hs |].
    apply (IH (s + 1)); [exact H | lia].
Qed.

(** All code points below the surrogates, and all above them. *)
Lemma check_cp_below_surrogates : check_range check_cp 0 (Z.to_nat 55296) = true.
Proof. vm_compute. reflexivity. Qed.

Lemma check_cp_above_surrogates : check_range check_cp 57344 (Z.to_nat 1056768) = true.
Proof. vm_compute. reflexivity. Qed.

Lemma check_cp_valid : forall cp, valid_scalar cp = true -> check_cp cp = true.
Proof.
  intros cp H. unfold valid_scalar in H. zbool_in H. destruct H as [H | H].
  - apply (check_range_spec _ _ _ _ check_cp_below_surrogates). lia.
  - apply (check_range_spec _ _ _ _ check_cp_above_surrogates). lia.
Qed.

Lemma decode_go_app : forall l1 st l2,
  utf8_decode_go st (l1 ++ l2) = fst (run st l1) ++ utf8_decode_go (snd (run st l1)) l2.
Proof.
  induction l1 as [| b l1 IH]; intros st l2; [reflexivity |].
  cbn [app utf8_decode_go run]. destruct (step st b) as [st' out].
  rewrite IH. destruct (run st' l1) as [out' st'']. cbn [fst snd]. apply app_assoc.
Qed.

Lemma is_init_eq : forall s, is_init s = true -> s = u8_init.
Proof.
  intros [a b c d e] H. unfold is_init in H. cbn [bytes_needed bytes_seen code_point
    lower_boundary upper_boundary] in H. zbool_in H.
  destruct H as [[[[-> ->] ->] ->] ->]. reflexivity.
Qed.

(** The decoder reads back what the encoder wrote, for any string of scalar values. *)
Lemma decode_encode : forall cps, forallb valid_scalar cps = true ->
  utf8_decode_go u8_init (flat_map utf8_encode_cp cps) = cps
  /\ forallb is_byte (flat_map utf8_encode_cp cps) = true.
Proof.
  induction cps as [| cp cps IH]; intros H; [split; reflexivity |].
  cbn [forallb] in H. apply andb_prop in H as [Hcp Hrest].
  pose proof (check_cp_valid cp Hcp) as Hc. unfold check_cp in Hc.
  apply andb_prop in Hc as [Hb Hrun].
  destruct (IH Hrest) as [IH1 IH2].
  cbn [flat_map]. rewrite decode_go_app, forallb_app, Hb, IH2.
  destruct (run u8_init (utf8_encode_cp cp)) as [out st].
  destruct out as [| c [| c' out]]; try discriminate.
  apply andb_prop in Hrun as [Hc Hi]. apply Z.eqb_eq in Hc. apply is_init_eq in Hi.
  subst c st. cbn [fst snd app]. rewrite IH1. split; reflexivity.
Qed.

Lemma surrogate_pair : forall c d, is_high c = true -> is_low d = true ->
  valid_scalar (65536 + Z.shiftl (c - 55296) 10 + (d - 56320)) = true
  /\ utf16_of_scalar (65536 + Z.shiftl (c - 55296) 10 + (d - 56320)) = [c; d].
Proof.
  intros c d Hc Hd. unfold is_high, is_low in *. zbool_in Hc. zbool_in Hd.
  rewrite Z.shiftl_mul_pow2 by lia. change (2 ^ 10) with 1024.
  split.
  - unfold valid_scalar. apply orb_true_iff. right. apply andb_true_iff.
    rewrite Z.leb_le, Z.ltb_lt. lia.
  - unfold utf16_of_scalar.
    replace (65536 + (c - 55296) * 1024 + (d - 56320) <? 65536) with false
      by (symmetry; apply Z.ltb_ge; lia).
    rewrite Z.shiftr_div_pow2 by lia. change (2 ^ 10) with 1024.
    change 1023 with (Z.ones 10). rewrite Z.land_ones by lia. change (2 ^ 10) with 1024.
    replace (65536 + (c - 55296) * 1024 + (d - 56320) - 65536)
      with ((c - 55296) * 1024 + (d - 56320)) by lia.
    assert (Q : ((c - 55296) * 1024 + (d - 56320)) / 1024 = c - 55296)
      by (symmetry; apply Z.div_unique with (d - 56320); lia).
    assert (R : ((c - 55296) * 1024 + (d - 56320)) mod 1024 = d - 56320)
      by (symmetry; apply Z.mod_unique with (c - 55296); lia).
    rewrite Q, R. f_equal; [lia | f_equal; lia].
Qed.

Lemma plain_unit : forall c, 0 <= c <= 65535 -> is_high c = false -> is_low c = false ->
  valid_scalar c = true /\ utf16_of_scalar c = [c].
Proof.
  intros c Hr Hh Hl. unfold is_high, is_low in *. zbool_in Hh. zbool_in Hl. split.
  - unfold valid_scalar. apply orb_true_iff. rewrite !andb_true_iff, !Z.leb_le, !Z.ltb_lt. lia.
  - unfold utf16_of_scalar. replace (c <? 65536) with true by (symmetry; apply Z.ltb_lt; lia).
    reflexivity.
Qed.

(** A well-formed UTF-16 string is a string of scalar values, which builds the
    same string back. *)
Lemma utf16_roundtrip : forall s, well_formed_utf16 s = true ->
  forallb valid_scalar (to_scalars s) = true /\ from_scalars (to_scalars s) = s.
Proof.
  intros s. remember (List.length s) as n eqn:Hn.
  revert s Hn. induction n as [n IH] using lt_wf_ind. intros s Hn H.
  destruct s as [| c rest]; [split; reflexivity |].
  cbn [well_formed_utf16] in H. apply andb_prop in H as [Hr H]. zbool_in Hr.
  destruct (is_high c) eqn:Hh.
  - destruct rest as [| d rest']; [discriminate |].
    apply andb_prop in H as [Hd H].
    destruct (IH (List.length rest') ltac:(simpl in Hn; lia) rest' eq_refl H) as [IH1 IH2].
    destruct (surrogate_pair c d Hh Hd) as [Hv Hu].
    cbn [to_scalars]. rewrite Hh, Hd. cbn [forallb flat_map from_scalars].
    unfold from_scalars in IH2 |- *. cbn [flat_map]. rewrite Hv, IH1, Hu, IH2.
    split; reflexivity.
  - apply andb_prop in H as [Hl H]. apply negb_true_iff in Hl.
    destruct (IH (List.length rest) ltac:(simpl in Hn; lia) rest eq_refl H) as [IH1 IH2].
    destruct (plain_unit c Hr Hh Hl) as [Hv Hu].
    cbn [to_scalars]. rewrite Hh, Hl. cbn [forallb].
    unfold from_scalars in IH2 |- *. cbn [flat_map]. rewrite Hv, IH1, Hu, IH2.
    split; reflexivity.
Qed.

Lemma no_leading_bom : forall s, well_formed_utf16 s = true -> starts_with_bom s = false ->
  strip_bom (to_scalars s) = to_scalars s.
Proof.
  intros [| c rest] H Hb; [reflexivity |].
  cbn [well_formed_utf16] in H. cbn [starts_with_bom] in Hb. apply Z.eqb_neq in Hb.
  apply andb_prop in H as [_ H]. cbn [to_scalars].
  destruct (is_high c) eqn:Hh.
  - destruct rest as [| d rest']; [discriminate |].
    apply andb_prop in H as [Hd _]. rewrite Hd. unfold strip_bom.
    unfold is_high in Hh. zbool_in Hh. rewrite Z.shiftl_mul_pow2 by lia.
    replace (65536 + (c - 55296) * 2 ^ 10 + (d - 56320) =? 65279) with false
      by (symmetry; apply Z.eqb_neq; unfold is_low in Hd; zbool_in Hd; change (2 ^ 10) with 1024; lia).
    reflexivity.
  - apply andb_prop in H as [Hl _]. apply negb_true_iff in Hl. rewrite Hl. unfold strip_bom.
    replace (c =? 65279) with false by (symmetry; apply Z.eqb_neq; exact Hb). reflexivity.
Qed.

(** *** Base64 *)

Lemma check_b64_char_all : check_range check_b64_char 0 64 = true.
Proof. vm_compute. reflexivity. Qed.

Lemma check_byte_all : check_range check_byte 0 256 = true.
Proof. vm_compute. reflexivity. Qed.

Lemma check_byte_pair_all : check_range (fun x => check_range (check_byte_pair x) 0 256) 0 256 = true.
Proof. vm_compute. reflexivity. Qed.

Lemma b64_char_facts : forall v, sextet v = true ->
  b64_value (b64_char v) = Some v /\ is_ascii_whitespace (b64_char v) = false
  /\ (b64_char v =? 61) = false.
Proof.
  intros v Hv. unfold sextet in Hv. zbool_in Hv.
  pose proof (check_range_spec _ _ _ v check_b64_char_all ltac:(simpl; lia)) as H.
  unfold check_b64_char in H. destruct (b64_value (b64_char v)) as [w |]; [| discriminate].
  apply andb_prop in H as [H H3]. apply andb_prop in H as [H1 H2].
  apply Z.eqb_eq in H1. apply negb_true_iff in H2, H3. subst w. auto.
Qed.

Lemma byte_facts : forall x, is_byte x = true ->
  sextet (sx0 x) = true /\ sextet (sx3 x) = true
  /\ Z.lor (Z.shiftl (Z.shiftr x 4) 4) (Z.land x 15) = x
  /\ Z.lor (Z.shiftl (Z.shiftr x 6) 6) (Z.land x 63) = x.
Proof.
  intros x Hx. unfold is_byte in Hx. zbool_in Hx.
  pose proof (check_range_spec _ _ _ x check_byte_all ltac:(simpl; lia)) as H.
  unfold check_byte in H. apply andb_prop in H as [H H4]. apply andb_prop in H as [H H3].
  apply andb_prop in H as [H1 H2]. apply Z.eqb_eq in H3, H4. auto.
Qed.

Lemma byte_pair_facts : forall x y, is_byte x = true -> is_byte y = true ->
  by0 (sx0 x) (sx1 x y) = x /\ Z.land (sx1 x y) 15 = Z.shiftr y 4
  /\ Z.shiftr (sx2 x y) 2 = Z.land x 15 /\ Z.land (sx2 x y) 3 = Z.shiftr y 6
  /\ sextet (sx1 x y) = true /\ sextet (sx2 x y) = true.
Proof.
  intros x y Hx Hy. unfold is_byte in Hx, Hy. zbool_in Hx. zbool_in Hy.
  pose proof (check_range_spec _ _ _ x check_byte_pair_all ltac:(simpl; lia)) as H.
  cbv beta in H. pose proof (check_range_spec _ _ _ y H ltac:(simpl; lia)) as H'.
  unfold check_byte_pair in H'.
  repeat match type of H' with (_ && _) = true => apply andb_prop in H' as [H' ?] end.
  repeat match goal with E : (_ =? _) = true |- _ => apply Z.eqb_eq in E end.
  repeat split; assumption.
Qed.

Lemma zero_byte : is_byte 0 = true.
Proof. reflexivity. Qed.

Lemma groups3_ind (P : list Z -> Prop) :
  P [] -> (forall x, P [x]) -> (forall x y, P [x; y]) ->
  (forall x y z r, P r -> P (x :: y :: z :: r)) -> forall l, P l.
Proof.
  intros H0 H1 H2 H3. fix IH 1. intros [| x [| y [| z r]]].
  - exact H0.
  - apply H1.
  - apply H2.
  - apply H3. apply IH.
Qed.

Lemma sextets_roundtrip : forall l, forallb is_byte l = true ->
  decode_sextets (sextets_of l) = l /\ forallb sextet (sextets_of l) = true
  /\ Nat.modulo (List.length (sextets_of l) + pad_count l) 4 = 0%nat
  /\ Nat.modulo (List.length (sextets_of l)) 4 <> 1%nat /\ (pad_count l <= 2)%nat.
Proof.
  induction l as [| x | x y | x y z r IH] using groups3_ind; intros Hb.
  - cbn. repeat split; [discriminate | lia].
  - cbn [forallb] in Hb. rewrite andb_true_r in Hb.
    destruct (byte_facts x Hb) as [S0 _].
    destruct (byte_pair_facts x 0 Hb zero_byte) as [B0 [_ [_ [_ [S1 _]]]]].
    cbn [sextets_of decode_sextets forallb List.length pad_count].
    rewrite B0, S0, S1. repeat split; [cbn; discriminate | lia].
  - cbn [forallb] in Hb. rewrite andb_true_r in Hb. apply andb_prop in Hb as [Hx Hy].
    destruct (byte_facts x Hx) as [S0 _].
    destruct (byte_facts y Hy) as [_ [_ [J4 _]]].
    destruct (byte_pair_facts x y Hx Hy) as [B0 [L15 [_ [_ [S1 _]]]]].
    destruct (byte_pair_facts y 0 Hy zero_byte) as [_ [_ [R2 [_ [_ S2]]]]].
    cbn [sextets_of decode_sextets forallb List.length pad_count].
    unfold by1. rewrite B0, L15, R2, J4, S0, S1, S2. repeat split; [cbn; discriminate | lia].
  - cbn [forallb] in Hb. apply andb_prop in Hb as [Hx Hb]. apply andb_prop in Hb as [Hy Hb].
    apply andb_prop in Hb as [Hz Hr].
    destruct (IH Hr) as [D [Ss [M1 [M2 P]]]].
    destruct (byte_facts x Hx) as [S0 _].
    destruct (byte_facts y Hy) as [_ [_ [J4 _]]].
    destruct (byte_facts z Hz) as [_ [S3 [_ J6]]].
    destruct (byte_pair_facts x y Hx Hy) as [B0 [L15 [_ [_ [S1 _]]]]].
    destruct (byte_pair_facts y z Hy Hz) as [_ [_ [R2 [L3 [_ S2]]]]].
    cbn [sextets_of decode_sextets forallb List.length pad_count].
    unfold by1, by2. rewrite B0, L15, R2, J4, L3. change (Z.lor (Z.shiftl (Z.shiftr z 6) 6) (sx3 z))
      with (Z.lor (Z.shiftl (Z.shiftr z 6) 6) (Z.land z 63)).
    rewrite J6, D.
    rewrite S0, S1, S2, S3, Ss. cbn [andb].
    repeat split; [| | exact P].
    + replace (S (S (S (S (List.length (sextets_of r))))) + pad_count r)%nat
        with (List.length (sextets_of r) + pad_count r + 1 * 4)%nat by lia.
      rewrite Nat.Div0.mod_add. exact M1.
    + replace (S (S (S (S (List.length (sextets_of r))))))%nat
        with (List.length (sextets_of r) + 1 * 4)%nat by lia.
      rewrite Nat.Div0.mod_add. exact M2.
Qed.

Lemma map_option_b64 : forall sx, forallb sextet sx = true ->
  map_option b64_value (map b64_char sx) = Some sx.
Proof.
  induction sx as [| v sx IH]; intros H; [reflexivity |].
  cbn [forallb] in H. apply andb_prop in H as [Hv H].
  cbn [map map_option]. rewrite (proj1 (b64_char_facts v Hv)), (IH H). reflexivity.
Qed.

Lemma strip_padding_b64 : forall sx p, forallb sextet sx = true -> (p <= 2)%nat ->
  strip_padding (map b64_char sx ++ repeat 61 p) = map b64_char sx.
Proof.
  intros sx p Hs Hp.
  assert (Hm : forall c, In c (rev (map b64_char sx)) -> (c =? 61) = false).
  { intros c Hc. apply in_rev, in_map_iff in Hc as [v [<- Hv]].
    rewrite forallb_forall in Hs. exact (proj2 (proj2 (b64_char_facts v (Hs v Hv)))). }
  unfold strip_padding. rewrite rev_app_distr, rev_repeat.
  destruct p as [| [| [| p]]]; [| | | lia]; cbn [repeat app].
  - rewrite app_nil_r. destruct (rev (map b64_char sx)) as [| c r] eqn:E; [reflexivity |].
    rewrite (Hm c (or_introl eq_refl)). reflexivity.
  - cbn [Z.eqb Pos.eqb]. destruct (rev (map b64_char sx)) as [| c r] eqn:E.
    + rewrite <- E, rev_involutive. reflexivity.
    + rewrite (Hm c (or_introl eq_refl)), <- E, rev_involutive. reflexivity.
  - cbn [Z.eqb Pos.eqb]. apply rev_involutive.
Qed.

Lemma atob_btoa : forall l, forallb is_byte l = true ->
  exists s, btoa l = Some s /\ atob s = Some l.
Proof.
  intros l Hl.
  destruct (sextets_roundtrip l Hl) as [D [Ss [M1 [M2 P]]]].
  exists (map b64_char (sextets_of l) ++ repeat 61 (pad_count l)). split.
  - unfold btoa.
    replace (forallb (fun c => (0 <=? c) && (c <=? 255)) l) with true; [reflexivity |].
    symmetry. rewrite forallb_forall in Hl |- *. intros c Hc. specialize (Hl c Hc).
    unfold is_byte in Hl. zbool_in Hl. apply andb_true_iff. rewrite !Z.leb_le. lia.
  - unfold atob. cbv zeta.
    rewrite StoreFacts.filter_all_true.
    2:{ intros c Hc. apply in_app_or in Hc as [Hc | Hc].
        - apply in_map_iff in Hc as [v [<- Hv]]. rewrite forallb_forall in Ss.
          rewrite (proj1 (proj2 (b64_char_facts v (Ss v Hv)))). reflexivity.
        - apply repeat_spec in Hc as ->. reflexivity. }
    rewrite length_app, length_map, repeat_length, M1. cbn [Nat.eqb].
    rewrite (strip_padding_b64 _ _ Ss P), length_map.
    replace (Nat.modulo (List.length (sextets_of l)) 4 =? 1)%nat with false
      by (symmetry; apply Nat.eqb_neq; exact M2).
    rewrite (map_option_b64 _ Ss), D. reflexivity.
Qed.

Lemma firstn_skipn_prefix : forall (l1 l2 : list Z) n, List.length l1 = n ->
  firstn n (l1 ++ l2) = l1 /\ skipn n (l1 ++ l2) = l2.
Proof.
  induction l1 as [| x l1 IH]; intros l2 n Hn; subst n; [split; reflexivity |].
  cbn [List.length firstn skipn app]. destruct (IH l2 _ eq_refl) as [H1 H2].
  rewrite H1, H2. split; reflexivity.
Qed.

Lemma iv_bytes : forall random : nat -> Z,
  forallb is_byte (map (fun i => random i mod 256) (seq 0 12)) = true
  /\ List.length (map (fun i => random i mod 256) (seq 0 12)) = 12%nat.
Proof.
  intros random. split; [| rewrite length_map, length_seq; reflexivity].
  apply forallb_forall. intros b Hb. apply in_map_iff in Hb as [i [<- _]].
  unfold is_byte. apply andb_true_iff. rewrite Z.leb_le, Z.ltb_lt.
  apply Z.mod_pos_bound. lia.
Qed.

(** For every string of code units and every AES-GCM, decrypting what
    [encryptText] produced gives the text's scalar values back as a string,
    a leading U+FEFF dropped. *)
Lemma roundtrip_scalars : forall c random text userId,
  gcm_correct c -> userId <> [] -> forallb valid_scalar (to_scalars text) = true ->
  exists enc, encryptText c random text userId = inl enc /\ isEncrypted enc = true
    /\ decryptText c enc userId = inl (from_scalars (strip_bom (to_scalars text))).
Proof.
  intros c random text userId Hc Hu Hv.
  destruct userId as [| u us]; [congruence |].
  destruct (decode_encode _ Hv) as [Hdec Hbytes].
  destruct (iv_bytes random) as [Hivb Hivl].
  unfold encryptText, decryptText, isEncrypted. cbv beta iota zeta.
  set (key := deriveKeyFromUserId c (u :: us)).
  set (iv := map (fun i => random i mod 256) (seq 0 12)) in *.
  unfold TextEncoder_encode.
  set (encoded := flat_map utf8_encode_cp (to_scalars text)) in *.
  destruct (Hc key iv encoded Hbytes) as [Hctb [Hlen Hrt]].
  set (ct := aes_gcm_encrypt c key iv encoded) in *.
  assert (Hall : forallb is_byte (iv ++ ct) = true) by (rewrite forallb_app, Hivb, Hctb; reflexivity).
  destruct (atob_btoa _ Hall) as [s [Hs Ha]].
  destruct (firstn_skipn_prefix iv ct 12 Hivl) as [Hf Hk].
  assert (Hge : (13 <=? List.length (iv ++ ct))%nat = true)
    by (apply Nat.leb_le; rewrite length_app, Hivl, Hlen; lia).
  rewrite Hs. exists s. rewrite Ha, Hge. cbn [negb].
  rewrite Hf, Hk, Hrt. unfold TextDecoder_decode. rewrite Hdec.
  repeat split; reflexivity.
Qed.

Lemma toy_gcm_correct : gcm_correct Fixtures.toy_subtle.
Proof.
  intros key iv p Hp. cbn [aes_gcm_encrypt aes_gcm_decrypt Fixtures.toy_subtle].
  rewrite forallb_app, Hp, length_app, repeat_length. split; [reflexivity | split; [reflexivity |]].
  replace (List.length p + 16 - 16)%nat with (List.length p) by lia.
  replace (16 <=? List.length p + 16)%nat with true by (symmetry; apply Nat.leb_le; lia).
  destruct (firstn_skipn_prefix p (repeat 0 16) _ eq_refl) as [H1 H2].
  rewrite H1, H2. reflexivity.
Qed.

(** C10 (as amended): for every well-formed UTF-16 text that does not begin
    with U+FEFF and every non-empty userId, [encryptText] succeeds, its output
    satisfies [isEncrypted], and [decryptText] with the same userId returns the
    text. This holds for every random IV and every AES-GCM meeting its contract;
    key derivation is a function of the userId. *)
Theorem C10_roundtrip_well_formed : forall (c : subtle_crypto) (random : nat -> Z) (text userId : jsstring),
  gcm_correct c -> userId <> [] -> well_formed_utf16 text = true -> starts_with_bom text = false ->
  exists enc, encryptText c random text userId = inl enc /\ isEncrypted enc = true
    /\ decryptText c enc userId = inl text.
Proof.
  intros c random text userId Hc Hu Hwf Hbom.
  destruct (utf16_roundtrip text Hwf) as [Hv Hback].
  destruct (roundtrip_scalars c random text userId Hc Hu Hv) as [enc [H1 [H2 H3]]].
  exists enc. rewrite (no_leading_bom text Hwf Hbom), Hback in H3. auto.
Qed.

Lemma C10_roundtrip_well_formed_witness :
  exists enc, encryptText Fixtures.toy_subtle Fixtures.zero_random (js "hi") Fixtures.user7 = inl enc
    /\ isEncrypted enc = true /\ decryptText Fixtures.toy_subtle enc Fixtures.user7 = inl (js "hi").
Proof.
  apply (C10_roundtrip_well_formed Fixtures.toy_subtle Fixtures.zero_random (js "hi") Fixtures.user7).
  - exact toy_gcm_correct.
  - discriminate.
  - reflexivity.
  - reflexivity.
Defined.

(** C10, counterexample: with an AES-GCM meeting its contract, the
    well-formed one-unit string U+FEFF decrypts to the empty string (the
    decoder drops it as a byte order mark), and the string made of a lone
    surrogate U+D800 decrypts to U+FFFD. *)
Lemma C10_bom_and_lone_surrogate_not_restored :
  gcm_correct Fixtures.toy_subtle
  /\ well_formed_utf16 [65279] = true
  /\ encrypt_then_decrypt Fixtures.toy_subtle Fixtures.zero_random [65279] Fixtures.user7 = inl []
  /\ encrypt_then_decrypt Fixtures.toy_subtle Fixtures.zero_random [55296] Fixtures.user7 = inl [65533].
Proof.
  split; [exact toy_gcm_correct |].
  split; [reflexivity |].
  split; vm_compute; reflexivity.
Qed.

(** The same loss under every AES-GCM, every IV and every userId. *)
Lemma bom_lost_for_every_crypto : forall c random userId,
  gcm_correct c -> userId <> [] -> encrypt_then_decrypt c random [65279] userId = inl [].
Proof.
  intros c random userId Hc Hu.
  destruct (roundtrip_scalars c random [65279] userId Hc Hu eq_refl) as [enc [H1 [_ H3]]].
  unfold encrypt_then_decrypt. rewrite H1, H3. reflexivity.
Qed.

(** ** Further properties of the encryption module *)

Lemma strip_padding_in : forall s u, In u s -> u <> 61 -> In u (strip_padding s).
Proof.
  intros s u Hin Hu. unfold strip_padding.
  destruct (rev s) as [| c1 r1] eqn:E; [exact Hin |].
  assert (H1 : In u (c1 :: r1)) by (rewrite <- E; apply in_rev; rewrite rev_involutive; exact Hin).
  destruct (c1 =? 61) eqn:E1; [| exact Hin].
  apply Z.eqb_eq in E1. subst c1.
  destruct H1 as [H1 | H1]; [congruence |].
  destruct r1 as [| c2 r2]; [destruct H1 |].
  destruct (c2 =? 61) eqn:E2.
  - apply Z.eqb_eq in E2. subst c2. destruct H1 as [H1 | H1]; [congruence |].
    apply in_rev. rewrite rev_involutive. exact H1.
  - apply in_rev. rewrite rev_involutive. exact H1.
Qed.

Lemma map_option_none : forall f l x, In x l -> f x = None -> map_option f l = None.
Proof.
  intros f l. induction l as [| y l IH]; intros x Hin Hx; [destruct Hin |].
  cbn [map_option]. destruct Hin as [-> | Hin].
  - rewrite Hx. reflexivity.
  - rewrite (IH x Hin Hx). destruct (f y); reflexivity.
Qed.

Lemma atob_bad_char : forall text u, In u text -> b64_value u = None ->
  is_ascii_whitespace u = false -> u <> 61 -> atob text = None.
Proof.
  intros text u Hin Hv Hws H61. unfold atob. cbv zeta.
  set (s1 := filter (fun c => negb (is_ascii_whitespace c)) text).
  assert (Hs1 : In u s1) by (apply filter_In; rewrite Hws; auto).
  set (s2 := if (Nat.modulo (List.length s1) 4 =? 0)%nat then strip_padding s1 else s1).
  assert (Hs2 : In u s2)
    by (unfold s2; destruct (_ =? 0)%nat; [apply strip_padding_in |]; assumption).
  destruct (_ =? 1)%nat; [reflexivity |].
  rewrite (map_option_none _ _ _ Hs2 Hv). reflexivity.
Qed.

Lemma decryptText_not_encrypted : forall c text userId, userId <> [] ->
  isEncrypted text = false -> decryptText c text userId = inl text.
Proof.
  intros c text userId Hu He. destruct userId as [| u us]; [congruence |].
  unfold decryptText. rewrite He. reflexivity.
Qed.

(** X13: decryptText returns a text unchanged (a user id given) when it
    contains a code unit that is neither a base64 letter, ['='] nor ASCII
    whitespace: such a text is not taken for a ciphertext. *)
Theorem decrypt_passes_non_base64 : forall c text userId u,
  userId <> [] -> In u text -> b64_value u = None ->
  is_ascii_whitespace u = false -> u <> 61 ->
  decryptText c text userId = inl text.
Proof.
  intros c text userId u Hu Hin Hv Hws H61. apply decryptText_not_encrypted; [exact Hu |].
  unfold isEncrypted. rewrite (atob_bad_char text u Hin Hv Hws H61). reflexivity.
Qed.

Lemma decrypt_passes_non_base64_witness :
  decryptText Fixtures.toy_subtle (js "Hello, world!") Fixtures.user7 = inl (js "Hello, world!").
Proof.
  apply (decrypt_passes_non_base64 _ _ _ 33).
  - discriminate.
  - vm_compute. intuition discriminate.
  - reflexivity.
  - reflexivity.
  - discriminate.
Defined.

Lemma decode_sextets_length : forall l,
  (4 * List.length (decode_sextets l) <= 3 * List.length l)%nat.
Proof.
  assert (H : forall n l, (List.length l <= n)%nat ->
            (4 * List.length (decode_sextets l) <= 3 * List.length l)%nat).
  { induction n as [| n IH]; intros l Hl.
    - destruct l; [cbn; lia | cbn in Hl; lia].
    - destruct l as [| a [| b [| c [| d rest]]]]; cbn [decode_sextets List.length]; try lia.
      cbn [List.length] in Hl. specialize (IH rest ltac:(lia)). lia. }
  intros l. exact (H _ l (le_n _)).
Qed.

Lemma map_option_length : forall f l l', map_option f l = Some l' ->
  List.length l' = List.length l.
Proof.
  intros f l. induction l as [| x l IH]; intros l' H; cbn [map_option] in H.
  - injection H as <-. reflexivity.
  - destruct (f x); [| discriminate]. destruct (map_option f l) as [ys |] eqn:E; [| discriminate].
    injection H as <-. cbn [List.length]. rewrite (IH ys eq_refl). reflexivity.
Qed.

Lemma strip_padding_length : forall s, (List.length (strip_padding s) <= List.length s)%nat.
Proof.
  intros s. unfold strip_padding.
  assert (Hl : List.length (rev s) = List.length s) by apply length_rev.
  destruct (rev s) as [| c1 r1]; [lia |].
  destruct (c1 =? 61); [| lia].
  cbn [List.length] in Hl.
  destruct r1 as [| c2 r2]; [cbn; lia |].
  cbn [List.length] in Hl. destruct (c2 =? 61); rewrite length_rev; cbn [List.length]; lia.
Qed.

Lemma atob_length : forall s d, atob s = Some d -> (4 * List.length d <= 3 * List.length s)%nat.
Proof.
  intros s d H. unfold atob in H. cbv zeta in H.
  set (s1 := filter (fun c => negb (is_ascii_whitespace c)) s) in H.
  assert (H1 : (List.length s1 <= List.length s)%nat) by apply filter_length_le.
  set (s2 := if (Nat.modulo (List.length s1) 4 =? 0)%nat then strip_padding s1 else s1) in H.
  assert (H2 : (List.length s2 <= List.length s1)%nat)
    by (unfold s2; destruct (_ =? 0)%nat; [apply strip_padding_length | lia]).
  destruct (_ =? 1)%nat; [discriminate |].
  destruct (map_option b64_value s2) as [sx |] eqn:E; [| discriminate].
  injection H as <-. pose proof (decode_sextets_length sx).
  rewrite (map_option_length _ _ _ E) in *. lia.
Qed.

(** X14: decryptText returns every text of fewer than 18 code units
    unchanged (a user id given): base64 that short decodes to at most 12
    bytes, below the 13 that isEncrypted asks for. *)
Theorem decrypt_passes_short_text : forall c text userId,
  userId <> [] -> (List.length text < 18)%nat -> decryptText c text userId = inl text.
Proof.
  intros c text userId Hu Hlen. apply decryptText_not_encrypted; [exact Hu |].
  unfold isEncrypted. destruct (atob text) as [d |] eqn:E; [| reflexivity].
  apply atob_length in E. apply Nat.leb_gt. lia.
Qed.

Lemma decrypt_passes_short_text_witness :
  decryptText Fixtures.toy_subtle (js "SGVsbG8gd29ybGQ=") Fixtures.user7 = inl (js "SGVsbG8gd29ybGQ=").
Proof. apply decrypt_passes_short_text; [discriminate | vm_compute; lia]. Defined.

Lemma to_scalars_valid : forall s, forallb (fun u => (0 <=? u) && (u <=? 65535)) s = true ->
  forallb valid_scalar (to_scalars s) = true.
Proof.
  assert (Hf : valid_scalar 65533 = true) by reflexivity.
  assert (H : forall n s, (List.length s <= n)%nat ->
            forallb (fun u => (0 <=? u) && (u <=? 65535)) s = true ->
            forallb valid_scalar (to_scalars s) = true).
  { induction n as [| n IH]; intros s Hl Hs.
    - destruct s; [reflexivity | cbn in Hl; lia].
    - destruct s as [| c rest]; [reflexivity |].
      cbn [forallb] in Hs. apply andb_prop in Hs as [Hc Hr].
      cbn [List.length] in Hl. cbn [to_scalars].
      destruct (is_high c) eqn:Eh.
      + destruct rest as [| d rest']; [reflexivity |].
        cbn [forallb] in Hr. apply andb_prop in Hr as [Hd Hr'].
        destruct (is_low d) eqn:El.
        * cbn [forallb]. rewrite (IH rest' ltac:(cbn in Hl; lia) Hr'), andb_true_r.
          unfold is_high, is_low in *. zbool_in Eh. zbool_in El.
          rewrite Z.shiftl_mul_pow2 by lia.
          unfold valid_scalar. apply orb_true_intro. right.
          apply andb_true_iff. rewrite Z.leb_le, Z.ltb_lt.
          change (2 ^ 10) with 1024. lia.
        * cbn [forallb]. rewrite Hf. apply IH; [cbn in Hl |- *; lia |].
          cbn [forallb]. rewrite Hd. exact Hr'.
      + destruct (is_low c) eqn:El.
        * cbn [forallb]. rewrite Hf. apply IH; [lia | exact Hr].
        * cbn [forallb]. rewrite (IH rest ltac:(lia) Hr), andb_true_r.
          unfold is_high, is_low in *. apply andb_false_iff in Eh. apply andb_false_iff in El.
          apply andb_prop in Hc as [Hc1 Hc2]. apply Z.leb_le in Hc1. apply Z.leb_le in Hc2.
          unfold valid_scalar. rewrite Z.leb_gt in Eh, El.
          destruct Eh as [Eh | Eh]; [apply orb_true_intro; left | destruct El as [El | El]];
            [| lia | apply orb_true_intro; right];
            apply andb_true_iff; rewrite ?Z.leb_le, ?Z.ltb_lt; lia. }
  intros s. exact (H _ s (le_n _)).
Qed.

(** X15: for every JavaScript string and every AES-GCM meeting its contract,
    decrypting what encryptText produced (a user id given) gives the string
    back with each lone surrogate replaced by U+FFFD and a leading U+FEFF
    dropped. *)
Theorem encrypt_decrypt_any_string : forall c random text userId,
  gcm_correct c -> userId <> [] ->
  forallb (fun u => (0 <=? u) && (u <=? 65535)) text = true ->
  exists enc, encryptText c random text userId = inl enc
    /\ decryptText c enc userId = inl (from_scalars (strip_bom (to_scalars text))).
Proof.
  intros c random text userId Hc Hu Ht.
  destruct (roundtrip_scalars c random text userId Hc Hu (to_scalars_valid text Ht))
    as [enc [H1 [_ H3]]].
  exists enc. split; assumption.
Qed.

Lemma encrypt_decrypt_any_string_witness :
  exists enc, encryptText Fixtures.toy_subtle Fixtures.zero_random [104; 55296] Fixtures.user7 = inl enc
    /\ decryptText Fixtures.toy_subtle enc Fixtures.user7
       = inl (from_scalars (strip_bom (to_scalars [104; 55296]))).
Proof.
  apply encrypt_decrypt_any_string; [exact toy_gcm_correct | discriminate | reflexivity].
Defined.

End EncryptionFacts.

Module RouteFacts.
Import Handlers Routes Fixtures.

Lemma auth_next_inv : forall supabase h u tokens,
  authenticateUser supabase h = (AuthNext u, tokens) ->
  exists s r, h = Some s /\ startsWith (js "Bearer ") s = true /\ tokens = [skipn 7 s]
    /\ auth_getUser supabase (skipn 7 s) = inl r /\ gu_error r = None /\ data_user r = Some u.
Proof.
  intros supabase h u tokens H. unfold authenticateUser in H.
  destruct h as [s |]; [| discriminate].
  destruct (match s with [] => true | _ => false end || negb (startsWith (js "Bearer ") s))
    eqn:Eb; [discriminate |].
  apply orb_false_iff in Eb as [_ Eb]. apply negb_false_iff in Eb.
  destruct (auth_getUser supabase (skipn 7 s)) as [r | e] eqn:Eg; [| discriminate].
  destruct (gu_error r) eqn:Ee; [discriminate |].
  destruct (data_user r) as [u' |] eqn:Eu; [| discriminate].
  injection H as <- <-. exists s, r. auto 7.
Qed.

Lemma auth_respond_status : forall supabase h resp tokens,
  authenticateUser supabase h = (AuthRespond resp, tokens) -> status resp = 401.
Proof.
  intros supabase h resp tokens H. unfold authenticateUser in H.
  destruct h as [s |]; [| injection H as <- _; reflexivity].
  destruct (_ || _); [injection H as <- _; reflexivity |].
  destruct (auth_getUser supabase (skipn 7 s)) as [r | e]; [| injection H as <- _; reflexivity].
  destruct (gu_error r), (data_user r); try discriminate; injection H as <- _; reflexivity.
Qed.

(** X21: authenticateUser either calls [next()] with the user that
    [getUser] returned, without error, for the header minus its
    ["Bearer "] prefix (that token being the only one it sent), or answers
    401. *)
Theorem authenticate_outcomes : forall supabase h,
  match fst (authenticateUser supabase h) with
  | AuthNext u => exists s r, h = Some s /\ startsWith (js "Bearer ") s = true
      /\ snd (authenticateUser supabase h) = [skipn 7 s]
      /\ auth_getUser supabase (skipn 7 s) = inl r /\ gu_error r = None /\ data_user r = Some u
  | AuthRespond resp => status resp = 401
  end.
Proof.
  intros supabase h.
  destruct (authenticateUser supabase h) as [[u | resp] tokens] eqn:E; cbn [fst snd].
  - exact (auth_next_inv _ _ _ _ E).
  - exact (auth_respond_status _ _ _ _ E).
Qed.

(** X22: without an authorization header starting with ["Bearer "] (the
    test is case-sensitive) authenticateUser answers 401 "No valid
    authorization token provided" and does not call Supabase. *)
Theorem authenticate_requires_bearer : forall supabase h,
  (forall s, h = Some s -> startsWith (js "Bearer ") s = false) ->
  authenticateUser supabase h
  = (AuthRespond (mk_response 401 (error_body "No valid authorization token provided")), []).
Proof.
  intros supabase h H. unfold authenticateUser.
  destruct h as [s |]; [| reflexivity].
  rewrite (H s eq_refl), orb_true_r. reflexivity.
Qed.

Lemma authenticate_requires_bearer_witness :
  authenticateUser sb_demo (Some (js "bearer tok7"))
  = (AuthRespond (mk_response 401 (error_body "No valid authorization token provided")), []).
Proof.
  apply authenticate_requires_bearer. intros s Hs. injection Hs as <-. reflexivity.
Defined.

(** A route either answers without calling [db], or makes one call with
    [req.user.id] and the header minus its first seven code units, and
    answers with that call's result. *)
Lemma route_cases : forall r db req,
  snd (handle_route r db req) = []
  \/ exists u h call, req_user req = Some u /\ headers_authorization req = Some h
     /\ handle_route r db req = call_db db call
     /\ request_user call = user_id u /\ request_token call = skipn 7 h.
Proof.
  intros r db req.
  destruct r; cbn [handle_route];
    unfold createConversation_route, getUserConversations_route, updateConversationTitle_route,
      deleteConversation_route, getConversationMessages_route, addMessage_route,
      with_user, with_token;
    destruct (req_user req) as [u |] eqn:Eu; try (left; reflexivity);
    repeat match goal with
           | |- context [match ?x with _ => _ end] =>
               lazymatch x with
               | headers_authorization req =>
                   destruct (headers_authorization req) as [h |] eqn:Eh;
                   [right; do 3 eexists; split; [reflexivity | split; [reflexivity |
                      split; [reflexivity | split; reflexivity]]]
                   | left; reflexivity]
               | _ => destruct x
               end
           end;
    try (left; reflexivity).
Qed.

(** A route that calls no [db] answers 400 (validation) or 500 (the
    TypeError of a missing [req.user] or authorization header). *)
Lemma route_no_call_status : forall r db req,
  snd (handle_route r db req) = [] ->
  status (fst (handle_route r db req)) = 400 \/ status (fst (handle_route r db req)) = 500.
Proof.
  intros r db req.
  destruct r; cbn [handle_route];
    unfold createConversation_route, getUserConversations_route, updateConversationTitle_route,
      deleteConversation_route, getConversationMessages_route, addMessage_route,
      with_user, with_token;
    repeat match goal with
           | |- context [match ?x with _ => _ end] => destruct x
           end;
    unfold call_db; cbn [fst snd]; intros H;
    first [discriminate H | left; reflexivity | right; reflexivity].
Qed.

(** X23: a database route makes at most one call to [db]: either none, and
    it answers 400 or 500, or exactly one, and it answers 200 with the call's
    result, or 500 with [{ error: error.message }] when the call throws. *)
Theorem route_answers_db_result : forall r db req,
  (snd (handle_route r db req) = []
   /\ (status (fst (handle_route r db req)) = 400 \/ status (fst (handle_route r db req)) = 500))
  \/ exists call, snd (handle_route r db req) = [call]
     /\ fst (handle_route r db req) = db_response (run_db db call).
Proof.
  intros r db req.
  destruct (route_cases r db req) as [H0 | (u & h & c & _ & _ & Hc & _ & _)].
  - left. split; [exact H0 | apply route_no_call_status; exact H0].
  - right. exists c. rewrite Hc. split; reflexivity.
Qed.

(** X24: behind authenticateUser, a database route calls [db] at most once,
    and only after Supabase returned a user for the token of a ["Bearer "]
    header; that call carries the id of that user and the same token. *)
Theorem protected_route_credentials : forall supabase r db req,
  snd (protected_route supabase r db req) = []
  \/ exists h u gr call, headers_authorization req = Some h
     /\ startsWith (js "Bearer ") h = true
     /\ auth_getUser supabase (skipn 7 h) = inl gr /\ gu_error gr = None /\ data_user gr = Some u
     /\ snd (fst (protected_route supabase r db req)) = [skipn 7 h]
     /\ snd (protected_route supabase r db req) = [call]
     /\ request_user call = user_id u /\ request_token call = skipn 7 h.
Proof.
  intros supabase r db req. unfold protected_route.
  destruct (authenticateUser supabase (headers_authorization req)) as [[u | resp] toks] eqn:Ea;
    [| left; reflexivity].
  destruct (auth_next_inv _ _ _ _ Ea) as (s & gr & Hh & Hb & Ht & Hg & He & Hu).
  set (req' := mk_route_request (headers_authorization req) (Some u) (params_id req) (req_body req)).
  destruct (route_cases r db req') as [H0 | (u' & h' & call & Hu' & Hh' & Hc & Hru & Hrt)].
  - left. destruct (handle_route r db req') as [resp calls]. exact H0.
  - right. cbn in Hu', Hh'. injection Hu' as <-. rewrite Hh in Hh'. injection Hh' as <-.
    rewrite Hc. unfold call_db. cbn [fst snd].
    exists s, u, gr, call. auto 9.
Qed.

(** X25: with [req.user] set, a falsy title makes the create and rename
    routes answer 400 "Title is required", and a falsy role or content makes
    the add-message route answer 400 "Role and content are required", in
    each case without calling [db]. *)
Theorem route_validation : forall db req u, req_user req = Some u ->
  (falsy (body_field (req_body req) "title") = true ->
     createConversation_route db req = (bad_request "Title is required", [])
     /\ updateConversationTitle_route db req = (bad_request "Title is required", []))
  /\ (falsy (body_field (req_body req) "role") || falsy (body_field (req_body req) "content")
      = true ->
      addMessage_route db req = (bad_request "Role and content are required", [])).
Proof.
  intros db req u Hu. split.
  - intros Ht. unfold createConversation_route, updateConversationTitle_route, with_user.
    rewrite Hu. destruct (body_field (req_body req) "title"); [rewrite Ht |]; split; reflexivity.
  - intros Hrc. unfold addMessage_route, with_user. rewrite Hu.
    destruct (body_field (req_body req) "role"), (body_field (req_body req) "content");
      try reflexivity.
    rewrite Hrc. reflexivity.
Qed.

Lemma route_validation_witness :
  let req := mk_route_request (Some (js "Bearer tok7")) (Some (mk_user 7)) (js "1")
               [("title", JStr ""); ("role", JStr "user")] in
  (falsy (body_field (req_body req) "title") = true ->
     createConversation_route db_ok req = (bad_request "Title is required", [])
     /\ updateConversationTitle_route db_ok req = (bad_request "Title is required", []))
  /\ (falsy (body_field (req_body req) "role") || falsy (body_field (req_body req) "content")
      = true ->
      addMessage_route db_ok req = (bad_request "Role and content are required", [])).
Proof. intros req. apply (route_validation db_ok req (mk_user 7)). reflexivity. Defined.

(** X26: handleResendConfirmation answers 400 "Email is required" without
    calling Supabase unless the body's [email] is a non-empty string; then it
    makes exactly one [generateLink] call, of type signup, for that email,
    redirecting to [protocol://host/]. *)
Theorem resend_link_request : forall supabase req,
  (handleResendConfirmation supabase req = (bad_request "Email is required", [])
   /\ forall email, body_field (resend_body req) "email" = Some (JStr email) -> email = "")
  \/ exists email, body_field (resend_body req) "email" = Some (JStr email) /\ email <> ""
     /\ snd (handleResendConfirmation supabase req)
        = [mk_link_request "signup" email
             (protocol req ++ "://" ++ match host req with Some h => h | None => "undefined" end
              ++ "/")].
Proof.
  intros supabase req. unfold handleResendConfirmation.
  destruct (body_field (resend_body req) "email") as [[] |] eqn:Ee;
    try (left; split; [reflexivity | intros email H; discriminate H]).
  destruct (String.eqb s "") eqn:Es.
  - left. split; [reflexivity |]. intros email H. injection H as <-. apply String.eqb_eq. exact Es.
  - right. exists s. split; [reflexivity | split; [apply String.eqb_neq; exact Es |]].
    destruct (admin_generateLink supabase _) as [r |]; [| reflexivity].
    destruct (resendError r) as [e |]; [| reflexivity].
    destruct (ae_message e) as [msg |]; [| reflexivity].
    destruct (includes msg "already been registered"); reflexivity.
Qed.

(** X27: handleResendConfirmation answers 200, 400 or 500, and 200 exactly
    when its [generateLink] call resolved without an error. *)
Theorem resend_success_iff : forall supabase req,
  (status (fst (handleResendConfirmation supabase req)) = 200
   \/ status (fst (handleResendConfirmation supabase req)) = 400
   \/ status (fst (handleResendConfirmation supabase req)) = 500)
  /\ (status (fst (handleResendConfirmation supabase req)) = 200 <->
      exists lreq r, snd (handleResendConfirmation supabase req) = [lreq]
        /\ admin_generateLink supabase lreq = inl r /\ resendError r = None).
Proof.
  intros supabase req. unfold handleResendConfirmation.
  destruct (body_field (resend_body req) "email") as [[] |];
    try (cbn [fst snd]; unfold bad_request; cbn [status]; split; [right; left; reflexivity | split; [intros Hs; discriminate Hs | intros (l0 & r0 & H0 & _); discriminate H0]]).
  destruct (String.eqb s "");
    [split; [right; left; reflexivity | split; [intros Hs; discriminate Hs | intros (l0 & r0 & H0 & _); discriminate H0]] |].
  set (lreq := mk_link_request "signup" s _).
  destruct (admin_generateLink supabase lreq) as [r |] eqn:Eg.
  - destruct (resendError r) as [e |] eqn:Er.
    + assert (Hno : ~ exists l r', [lreq] = [l] /\ admin_generateLink supabase l = inl r'
                                   /\ resendError r' = None).
      { intros (l & r' & Hl & Hg & Hr'). injection Hl as <-. rewrite Eg in Hg.
        injection Hg as <-. congruence. }
      destruct (ae_message e) as [msg |];
        [destruct (includes msg "already been registered") |];
        cbn [fst snd status]; (split; [auto | split; [discriminate | intros H; contradiction]]).
    + cbn [fst snd status]. split; [left; reflexivity |].
      split; [intros _; exists lreq, r; auto | reflexivity].
  - cbn [fst snd status]. split; [right; right; reflexivity |].
    split; [discriminate | intros (l & r' & Hl & Hg & _)].
    injection Hl as <-. rewrite Eg in Hg. discriminate.
Qed.

End RouteFacts.
